(** * bedpeSummary: the summary pass over a BEDPE file

    A shallow embedding of [src/bedpeSummary/bedpeSummary.cpp]: the scan loop
    of [ProcessBedPE_summary], the helper [calc_median_chrposv] and the
    constructor of [HistogramData], followed by the properties of the
    report that the specification states.

    Conventions.
    - [int] is a 32-bit and [CHRPOS] a 64-bit two's complement integer;
      both are carried as [Z] and every arithmetic operation of the source
      is followed by its wrap-around.
    - [std::vector<T>] is a [list]; [operator[]] outside the vector and the
      conversion of a floating value that no integer represents have no
      defined result in C++, which the embedding records as [Undefined]. *)

From stdpp Require Import base numbers list strings sorting.

Local Open Scope Z_scope.

(** ** Machine integers *)

Module MachineInt.

Definition wrap_signed (bits z : Z) : Z :=
  (z + 2 ^ (bits - 1)) mod 2 ^ bits - 2 ^ (bits - 1).

Definition wrap_unsigned (bits z : Z) : Z := z mod 2 ^ bits.

(** [int] *)
Definition INT_MIN : Z := - 2 ^ 31.
Definition INT_MAX : Z := 2 ^ 31 - 1.
Definition wrap_int : Z → Z := wrap_signed 32.
Definition int_incr (x : Z) : Z := wrap_int (x + 1).
Definition int_decr (x : Z) : Z := wrap_int (x - 1).

(** [size_t] *)
Definition size_sub (x y : Z) : Z := wrap_unsigned 64 (x - y).

End MachineInt.
Export MachineInt.

(** ** Operations without a defined result *)

Inductive fault : Set :=
  | IndexOutOfRange   (* operator[] applied outside [0, size) *)
  | DivisionByZero    (* an integer division by zero *)
  | FloatToInteger    (* a NaN or out-of-range double converted to an integer *)
  | VectorLength.     (* a vector constructed with a negative element count *)

Inductive outcome (A : Type) : Type :=
  | Defined (a : A)
  | Undefined (f : fault).
Arguments Defined {A} a.
Arguments Undefined {A} f.

Global Instance outcome_ret : MRet outcome := λ A a, Defined a.

Global Instance outcome_bind : MBind outcome := λ A B k m,
  match m with
  | Defined a => k a
  | Undefined f => Undefined f
  end.

Global Instance outcome_fmap : FMap outcome := λ A B g m,
  match m with
  | Defined a => Defined (g a)
  | Undefined f => Undefined f
  end.

Global Instance fault_eq_dec : EqDecision fault.
Proof. solve_decision. Defined.

(** Modelled from the spec: the typedef [CHRPOS] lives in a header that is
    not part of the sources at hand. The specification calls coordinates
    and distances signed, wide integers, and the code applies [llabs] to
    them, so [CHRPOS] is taken to be the 64-bit signed integer. *)
Module Chrpos.

Definition CHRPOS_MIN : Z := - 2 ^ 63.
Definition CHRPOS_MAX : Z := 2 ^ 63 - 1.
Definition wrap_chrpos : Z → Z := wrap_signed 64.

Definition chrpos_add (x y : Z) : Z := wrap_chrpos (x + y).
Definition chrpos_sub (x y : Z) : Z := wrap_chrpos (x - y).
(** [/] on integers truncates towards zero and has no result for a zero
    divisor. *)
Definition chrpos_div (x y : Z) : outcome Z :=
  if decide (y = 0) then Undefined DivisionByZero
  else Defined (wrap_chrpos (x ÷ y)).
Definition llabs (x : Z) : Z := wrap_chrpos (Z.abs x).

End Chrpos.
Export Chrpos.

(** [v[i]] for a [size_type] index [i]: defined for [0 ≤ i < v.size()]. *)
Definition vec_at {A : Type} (v : list A) (i : Z) : outcome A :=
  if decide (0 ≤ i < Z.of_nat (length v)) then
    match v !! Z.to_nat i with
    | Some x => Defined x
    | None => Undefined IndexOutOfRange
    end
  else Undefined IndexOutOfRange.

(** ** Doubles

    The only doubles the program forms are the quiet NaN of [std::nan] and
    the images of 64-bit integers, so a double is either NaN or an
    integral value with at most 53 significant bits. *)

Inductive double : Set :=
  | DNaN
  | DIntegral (z : Z).

(** Round to nearest, ties to even, on 53 bits of significand. *)
Definition round_binary64 (z : Z) : Z :=
  let a := Z.abs z in
  if decide (a < 2 ^ 53) then z
  else
    let e := Z.log2 a - 52 in
    let q := a ≫ e in
    let r := a mod 2 ^ e in
    let half := 2 ^ (e - 1) in
    let q' := if decide (r < half) then q
              else if decide (half < r) then q + 1
              else if Z.even q then q else q + 1 in
    Z.sgn z * (q' ≪ e).

Definition double_of_chrpos (z : Z) : double := DIntegral (round_binary64 z).

Definition chrpos_of_double (d : double) : outcome Z :=
  match d with
  | DNaN => Undefined FloatToInteger
  | DIntegral z =>
      if decide (CHRPOS_MIN ≤ z ≤ CHRPOS_MAX) then Defined z
      else Undefined FloatToInteger
  end.

(** ** Records read from the BEDPE file *)

(** Modelled from the spec: [BedLineStatus] and [BEDPE] are declared in
    [bedFilePE.h], which is not among the sources. The reader tags every
    line as a valid record, a header or blank line, or as the end of the
    input ([BED_INVALID]); a record carries two loci with a chromosome,
    start, end and strand each. *)
Inductive BedLineStatus : Set :=
  | BED_INVALID
  | BED_HEADER
  | BED_BLANK
  | BED_VALID.

Global Instance BedLineStatus_eq_dec : EqDecision BedLineStatus.
Proof. solve_decision. Defined.

Record BEDPE : Set := mkBEDPE {
  chrom1 : string;
  start1 : Z;
  end1 : Z;
  chrom2 : string;
  start2 : Z;
  end2 : Z;
  strand1 : string;
  strand2 : string
}.

Global Instance BEDPE_eq_dec : EqDecision BEDPE.
Proof. solve_decision. Defined.

(** What one call of [GetNextBedPE] hands back. *)
Definition line : Set := BedLineStatus * BEDPE.

(** The entry left in [bedpeEntry_a] when the reader is exhausted; the loop
    never looks at it. *)
Definition stale_entry : BEDPE := mkBEDPE "" 0 0 "" 0 0 "" "".

(** [bedpe->GetNextBedPE(bedpeEntry_a, lineNum_a)], with the file as the
    list of the outcomes still to come. *)
Definition GetNextBedPE (bedpe : list line) : line * list line :=
  match bedpe with
  | [] => ((BED_INVALID, stale_entry), [])
  | l :: rest => (l, rest)
  end.

(** ** The scan loop of [ProcessBedPE_summary] *)

(** The locals declared under the comment [totals]. *)
Record totals : Set := mkTotals {
  n_intrachrom : Z;
  n_interchrom : Z;
  inversion : Z;
  insertion : Z;
  deletion : Z;
  total_distance : Z;
  accum : list Z
}.

Definition totals_init : totals := mkTotals 0 0 0 0 0 0 [].

(** The body of the [do ... while] loop, lines 150 to 167. *)
Definition loop_body (t : totals) (bedpeStatus_a : BedLineStatus)
    (bedpeEntry_a : BEDPE) : totals :=
  if decide (bedpeStatus_a = BED_VALID) then
    if decide (chrom1 bedpeEntry_a = chrom2 bedpeEntry_a) then
      mkTotals (n_intrachrom t) (int_incr (n_interchrom t))
               (inversion t) (insertion t) (deletion t)
               (total_distance t) (accum t)
    else
      let distance :=
        llabs (chrpos_sub (start2 bedpeEntry_a) (start1 bedpeEntry_a)) in
      let n_intrachrom' := int_incr (n_intrachrom t) in
      let accum' := accum t ++ [distance] in
      let total_distance' := chrpos_add (total_distance t) distance in
      if decide (strand1 bedpeEntry_a = strand2 bedpeEntry_a) then
        mkTotals n_intrachrom' (n_interchrom t)
                 (int_incr (inversion t)) (insertion t) (deletion t)
                 total_distance' accum'
      else if bool_decide (strand1 bedpeEntry_a = "+")
              && bool_decide (strand2 bedpeEntry_a = "-") then
        mkTotals n_intrachrom' (n_interchrom t)
                 (inversion t) (insertion t) (int_incr (deletion t))
                 total_distance' accum'
      else if bool_decide (strand1 bedpeEntry_a = "-")
              && bool_decide (strand2 bedpeEntry_a = "+") then
        mkTotals n_intrachrom' (n_interchrom t)
                 (inversion t) (int_incr (insertion t)) (deletion t)
                 total_distance' accum'
      else
        mkTotals n_intrachrom' (n_interchrom t)
                 (inversion t) (insertion t) (deletion t)
                 total_distance' accum'
  else t.

(** The loop, entered with the status and entry of the priming read; every
    turn runs the body and then reads the next line, and the loop is left
    at the first [BED_INVALID]. [bedpe] is what the reader has not handed
    out yet (see [scan_unfold] for the reading through [GetNextBedPE]). *)
Fixpoint scan (t : totals) (bedpeStatus_a : BedLineStatus)
    (bedpeEntry_a : BEDPE) (bedpe : list line) : totals :=
  let t' := loop_body t bedpeStatus_a bedpeEntry_a in
  match bedpe with
  | [] => t'
  | (status', entry') :: bedpe' =>
      if decide (status' = BED_INVALID) then t'
      else scan t' status' entry' bedpe'
  end.

(** ** [calc_median_chrposv] *)

(** [std::sort] with the default ordering. *)
Definition std_sort (v : list Z) : list Z := merge_sort Z.le v.

(** The vector is taken by reference and sorted in place, so the function
    hands back the vector as the caller will see it next to the value it
    returns. *)
Definition calc_median_chrposv (accum : list Z) : list Z * outcome Z :=
  let accum := std_sort accum in
  let n := Z.of_nat (length accum) in
  (accum,
   if decide (n `mod` 2 ≠ 0) then vec_at accum (n `div` 2)
   else
     a ← vec_at accum (size_sub (n `div` 2) 1);
     b ← vec_at accum (n `div` 2);
     chrpos_div (chrpos_add a b) 2).

(** ** [HistogramData] *)

Record HistogramData : Set := mkHistogramData {
  n_bins : Z;
  min_val : Z;
  max_val : Z;
  bin_width : Z;
  bin_data : list Z
}.

(** [*std::min_element] and [*std::max_element] of a non-empty range. *)
Definition min_element (data : list Z) : Z :=
  match data with
  | [] => 0
  | x :: rest => foldl Z.min x rest
  end.

Definition max_element (data : list Z) : Z :=
  match data with
  | [] => 0
  | x :: rest => foldl Z.max x rest
  end.

(** Lines 118 to 120: the index of the bin a value falls into. *)
Definition bin_index (min_val bin_width num_bins value : Z) : outcome Z :=
  q ← chrpos_div (chrpos_sub value min_val) bin_width;
  let bin_idx := wrap_int q in
  mret (if decide (bin_idx = num_bins) then int_decr bin_idx else bin_idx).

(** Line 121: [bin_data[bin_idx]++]. The [int] index is converted to the
    unsigned [size_type], so a negative index is as far out of range as a
    large one. *)
Definition bump (bin_data : list Z) (bin_idx : Z) : outcome (list Z) :=
  c ← vec_at bin_data (wrap_unsigned 64 bin_idx);
  mret (<[Z.to_nat (wrap_unsigned 64 bin_idx) := int_incr c]> bin_data).

(** The range-for loop over [data]. *)
Fixpoint fill_bins (min_val bin_width num_bins : Z) (data : list Z)
    (bin_data : list Z) : outcome (list Z) :=
  match data with
  | [] => mret bin_data
  | value :: rest =>
      bin_idx ← bin_index min_val bin_width num_bins value;
      bin_data' ← bump bin_data bin_idx;
      fill_bins min_val bin_width num_bins rest bin_data'
  end.

(** The constructor [HistogramData(data, num_bins)]. *)
Definition HistogramData_ctor (data : list Z) (num_bins : Z)
    : outcome HistogramData :=
  if decide (num_bins < 0) then Undefined VectorLength
  else
    let zeros := replicate (Z.to_nat num_bins) 0 in
    if bool_decide (data = []) || bool_decide (num_bins ≤ 0) then
      mret (mkHistogramData num_bins 0 0 0 zeros)
    else
      let min_val := min_element data in
      let max_val := max_element data in
      bin_width ← chrpos_div (chrpos_sub max_val min_val) num_bins;
      if decide (bin_width = 0) then
        mret (mkHistogramData num_bins min_val max_val bin_width zeros)
      else
        bin_data ← fill_bins min_val bin_width num_bins data zeros;
        mret (mkHistogramData num_bins min_val max_val bin_width bin_data).

(** ** The report *)

(** Line 170. Both arms of the conditional are brought to [double], their
    common type, and the result initialises a [CHRPOS]. *)
Definition mean_len (total_distance n_intrachrom : Z) : outcome Z :=
  d ← (if decide (n_intrachrom ≠ 0)
       then double_of_chrpos <$> chrpos_div total_distance n_intrachrom
       else mret DNaN);
  chrpos_of_double d.

(** What lines 173 to 188 print. The mean, the median and the histogram
    each carry their own outcome, so that a field without a defined value
    does not hide the others. *)
Record report : Set := mkReport {
  r_inversion : Z;
  r_insertion : Z;
  r_deletion : Z;
  r_n_interchrom : Z;
  r_n_intrachrom : Z;
  r_mean_len : outcome Z;
  r_median_len : outcome Z;
  r_hist : outcome HistogramData
}.

(** Lines 169 to 188: everything after the loop. The histogram is built
    from [accum] as [calc_median_chrposv] left it. *)
Definition finalize (t : totals) : report :=
  let mean := mean_len (total_distance t) (n_intrachrom t) in
  let '(accum', median) := calc_median_chrposv (accum t) in
  mkReport (inversion t) (insertion t) (deletion t)
           (n_interchrom t) (n_intrachrom t)
           mean median (HistogramData_ctor accum' 10).

(** [ProcessBedPE_summary]: [None] when the function returns before the
    loop and prints nothing. *)
Definition ProcessBedPE_summary (bedpe : list line) : option report :=
  let '((bedpeStatus_a, bedpeEntry_a), bedpe) := GetNextBedPE bedpe in
  if decide (bedpeStatus_a = BED_INVALID) then None
  else Some (finalize (scan totals_init bedpeStatus_a bedpeEntry_a bedpe)).

(** A run over valid records only. *)
Definition valid_lines (records : list BEDPE) : list line :=
  (λ e, (BED_VALID, e)) <$> records.

(** ** The specification's median (section 4.2)

    Written after the words of the specification, on a sequence that is
    already in ascending order: the middle element for an odd length, the
    truncated mean of the two middle elements for an even one. *)
Definition exact_median (sorted : list Z) : Z :=
  let n := length sorted in
  if Nat.odd n then nth (n / 2)%nat sorted 0
  else (nth (n / 2 - 1)%nat sorted 0 + nth (n / 2)%nat sorted 0) ÷ 2.

(** Values whose pairwise sums stay inside [CHRPOS]. *)
Definition half_range (d : Z) : Prop := - 2 ^ 62 ≤ d < 2 ^ 62.

(** ** The turns of the loop *)

(** One turn of the loop on a line. *)
Definition turn (t : totals) (l : line) : totals := loop_body t l.1 l.2.

(** The lines read after the priming read and before the first
    [BED_INVALID]. *)
Fixpoint before_invalid (bedpe : list line) : list line :=
  match bedpe with
  | [] => []
  | l :: bedpe' =>
      if decide (l.1 = BED_INVALID) then [] else l :: before_invalid bedpe'
  end.

(** The state after the first [k] turns of the loop started by
    [ProcessBedPE_summary] on the lines [first :: bedpe]. *)
Definition after_turns (k : nat) (first : line) (bedpe : list line) : totals :=
  foldl turn totals_init (take k (first :: before_invalid bedpe)).

(** Valid records among the lines consumed in the first [k] turns. *)
Definition valid_consumed (k : nat) (first : line) (bedpe : list line) : Z :=
  Z.of_nat (length (filter (λ l : line, l.1 = BED_VALID)
                           (take k (first :: before_invalid bedpe)))).

(** ** Notions used in the proofs *)

(** The totals after [v] valid records, none of the counters wrapped. *)
Definition consistent (v : Z) (t : totals) : Prop :=
  0 ≤ n_interchrom t ∧ 0 ≤ n_intrachrom t ∧
  0 ≤ inversion t ∧ 0 ≤ insertion t ∧ 0 ≤ deletion t ∧
  n_interchrom t + n_intrachrom t = v ∧
  inversion t + insertion t + deletion t ≤ n_intrachrom t ∧
  Z.of_nat (length (accum t)) = n_intrachrom t.

(** Totals that agree up to the order of the buffered distances. *)
Definition same_totals (t t' : totals) : Prop :=
  n_intrachrom t = n_intrachrom t' ∧ n_interchrom t = n_interchrom t' ∧
  inversion t = inversion t' ∧ insertion t = insertion t' ∧
  deletion t = deletion t' ∧ total_distance t = total_distance t' ∧
  accum t ≡ₚ accum t'.

(** What a turn of the loop does to the totals, as far as it can be read
    off the line alone: which counters it raises and the distance it
    stores, if any. *)
Record effect : Set := mkEffect {
  on_intrachrom : bool;
  on_interchrom : bool;
  on_inversion : bool;
  on_insertion : bool;
  on_deletion : bool;
  measured : option Z
}.

Definition incr_if (b : bool) (x : Z) : Z := if b then int_incr x else x.

Definition add_measured (m : option Z) (total : Z) : Z :=
  match m with Some d => chrpos_add total d | None => total end.

Definition push_measured (m : option Z) (acc : list Z) : list Z :=
  match m with Some d => acc ++ [d] | None => acc end.

Definition apply_effect (f : effect) (t : totals) : totals :=
  mkTotals (incr_if (on_intrachrom f) (n_intrachrom t))
           (incr_if (on_interchrom f) (n_interchrom t))
           (incr_if (on_inversion f) (inversion t))
           (incr_if (on_insertion f) (insertion t))
           (incr_if (on_deletion f) (deletion t))
           (add_measured (measured f) (total_distance t))
           (push_measured (measured f) (accum t)).

Definition line_effect (l : line) : effect :=
  let e := l.2 in
  if decide (l.1 = BED_VALID) then
    if decide (chrom1 e = chrom2 e) then
      mkEffect false true false false false None
    else
      let d := Some (llabs (chrpos_sub (start2 e) (start1 e))) in
      if decide (strand1 e = strand2 e) then
        mkEffect true false true false false d
      else if bool_decide (strand1 e = "+") && bool_decide (strand2 e = "-") then
        mkEffect true false false false true d
      else if bool_decide (strand1 e = "-") && bool_decide (strand2 e = "+") then
        mkEffect true false false true false d
      else
        mkEffect true false false false false d
  else mkEffect false false false false false None.

(** The total of the bin counts of a histogram. *)
Definition sum_bins (bins : list Z) : Z := foldr Z.add 0 bins.

(** ** The command line of [bedpesummary_main] *)

(** [strncmp(s1, s2, n) == 0]: the two strings agree on their first [n]
    characters, a string that ends earlier being compared up to its
    end. *)
Fixpoint strncmp_eq (s1 s2 : string) (n : N) : bool :=
  if decide (n = 0%N) then true
  else
    match s1, s2 with
    | EmptyString, EmptyString => true
    | String c1 s1', String c2 s2' =>
        if decide (c1 = c2) then strncmp_eq s1' s2' (N.pred n) else false
    | _, _ => false
    end.

(** [(int)strlen(argv[i])] *)
Definition parameterLength (arg : string) : Z :=
  wrap_int (Z.of_nat (String.length arg)).

(** The macro [PARAMETER_CHECK(param, paramLen, actualLen)], with [arg] for
    the [argv[i]] it reads; the [int] that [min] returns becomes the
    [size_t] count of [strncmp]. *)
Definition PARAMETER_CHECK (arg param : string) (paramLen actualLen : Z)
    : bool :=
  strncmp_eq arg param (Z.to_N (wrap_unsigned 64 (Z.min actualLen paramLen)))
  && bool_decide (actualLen = paramLen).

(** The test of lines 45 and 46. *)
Definition help_flag (arg : string) : bool :=
  PARAMETER_CHECK arg "-h" 2 (parameterLength arg)
  || PARAMETER_CHECK arg "--help" 5 (parameterLength arg).

(** The first loop, lines 42 to 49, over [argv[1]] and what follows. *)
Definition scan_for_help (args : list string) : bool :=
  foldl (λ (showHelp : bool) arg, if help_flag arg then true else showHelp)
        false args.

(** The variables of the second loop: the input file, the help flag and
    the arguments reported on the standard error as unrecognized. *)
Record cli : Set := mkCli {
  bedpeFileA : string;
  showHelp : bool;
  unrecognized : list string
}.

(** The second loop, lines 54 to 68. An [-i] takes the next argument as
    the input file and steps over it; an [-i] in last position is passed
    over. *)
Fixpoint parse_parameters (args : list string) (c : cli) : cli :=
  match args with
  | [] => c
  | arg :: rest =>
      if PARAMETER_CHECK arg "-i" 2 (parameterLength arg) then
        match rest with
        | file :: rest' =>
            parse_parameters rest' (mkCli file (showHelp c) (unrecognized c))
        | [] => c
        end
      else
        parse_parameters rest
          (mkCli (bedpeFileA c) true (unrecognized c ++ [arg]))
  end.

(** How [bedpesummary_main] ends: in [bedpesummary_help], which writes the
    usage and calls [exit(1)], after the unrecognized parameters were
    reported; or in [ProcessBedPE_summary] on the chosen file, with the
    return of 0. *)
Inductive main_result : Set :=
  | Help (reported : list string)
  | Summarise (file : string).

Definition bedpesummary_main (argv : list string) : main_result :=
  let args := tail argv in
  if scan_for_help args then Help []
  else
    let c := parse_parameters args (mkCli "stdin" false []) in
    if negb (showHelp c) then Summarise (bedpeFileA c)
    else Help (unrecognized c).

(** Arguments whose length an [int] can hold. *)
Definition short_arg (arg : string) : Prop :=
  Z.of_nat (String.length arg) ≤ INT_MAX.

(** The arguments that select the input files [files] in turn, with or
    without a last [-i] that has no file. *)
Definition input_options (files : list string) (dangling : bool)
    : list string :=
  concat ((λ file, ["-i"; file]) <$> files)
  ++ (if dangling then ["-i"] else []).

(** ** What the loop is expected to leave in the totals *)

(** The records of the valid lines, in the order read. *)
Definition valid_records (ls : list line) : list BEDPE :=
  snd <$> filter (λ l : line, l.1 = BED_VALID) ls.

(** The distance of line 155. *)
Definition distance_of (e : BEDPE) : Z :=
  llabs (chrpos_sub (start2 e) (start1 e)).

(** The tests of lines 151 and 159 to 163 as predicates on a record. *)
Definition counted_rec (e : BEDPE) : Prop := chrom1 e = chrom2 e.
Definition measured_rec (e : BEDPE) : Prop := chrom1 e ≠ chrom2 e.
Definition inversion_rec (e : BEDPE) : Prop :=
  chrom1 e ≠ chrom2 e ∧ strand1 e = strand2 e.
Definition deletion_rec (e : BEDPE) : Prop :=
  chrom1 e ≠ chrom2 e ∧ strand1 e = "+" ∧ strand2 e = "-".
Definition insertion_rec (e : BEDPE) : Prop :=
  chrom1 e ≠ chrom2 e ∧ strand1 e = "-" ∧ strand2 e = "+".

Global Instance counted_rec_dec e : Decision (counted_rec e).
Proof. unfold counted_rec. apply _. Defined.
Global Instance measured_rec_dec e : Decision (measured_rec e).
Proof. unfold measured_rec. apply _. Defined.
Global Instance inversion_rec_dec e : Decision (inversion_rec e).
Proof. unfold inversion_rec. apply _. Defined.
Global Instance deletion_rec_dec e : Decision (deletion_rec e).
Proof. unfold deletion_rec. apply _. Defined.
Global Instance insertion_rec_dec e : Decision (insertion_rec e).
Proof. unfold insertion_rec. apply _. Defined.

(** How many records of a list pass a test. *)
Definition count_recs (P : BEDPE → Prop) `{∀ e, Decision (P e)}
    (recs : list BEDPE) : Z :=
  Z.of_nat (length (filter P recs)).

(** The sum of a list of distances, without wrap-around. *)
Definition sum_chrpos (ds : list Z) : Z := foldr Z.add 0 ds.

(** The valid records a run works on: those among the line of the priming
    read and the lines read before the first [BED_INVALID]. *)
Definition run_records (first : line) (bedpe : list line) : list BEDPE :=
  valid_records (first :: before_invalid bedpe).

(** The bin a value belongs to: the quotient of lines 118, with the last
    bin taking what lies beyond it. *)
Definition bin_of (min_val bin_width num_bins value : Z) : Z :=
  Z.min ((value - min_val) `div` bin_width) (num_bins - 1).

(** The spread of the data loses less than one bin width when it is cut
    into [num_bins] bins. *)
Definition evenly_binned (data : list Z) (num_bins : Z) : Prop :=
  (max_element data - min_element data) `mod` num_bins
  < (max_element data - min_element data) `div` num_bins.

(** A record with its two start coordinates exchanged. *)
Definition swap_starts (e : BEDPE) : BEDPE :=
  mkBEDPE (chrom1 e) (start2 e) (end1 e) (chrom2 e) (start1 e) (end2 e)
          (strand1 e) (strand2 e).

(** Coordinates as a BEDPE file has them: not negative. *)
Definition coordinate (x : Z) : Prop := 0 ≤ x ≤ CHRPOS_MAX.

(** ** Sample records *)

Module Samples.

(** Both ends on chromosome 1. *)
Definition same_chrom : BEDPE := mkBEDPE "chr1" 100 200 "chr1" 500 600 "+" "+".

(** Ends on chromosomes 1 and 2, [d] apart. *)
Definition split_chrom (d : Z) (s1 s2 : string) : BEDPE :=
  mkBEDPE "chr1" 100 200 "chr2" (100 + d) (200 + d) s1 s2.

(** A header line and two records behind the record of the priming
    read. *)
Definition later_lines : list line :=
  [(BED_HEADER, stale_entry);
   (BED_VALID, same_chrom);
   (BED_VALID, split_chrom 300 "." "+")].

(** Two records whose distances are 0 and 19. *)
Definition wide_pair : list BEDPE :=
  [split_chrom 0 "+" "-"; split_chrom 19 "-" "+"].

End Samples.

(** Runs used to instantiate the further properties. *)
Module Runs.

(** Four records, three of them on two chromosomes, and a blank line
    between them. *)
Definition headed : list line :=
  [(BED_VALID, Samples.split_chrom 100 "+" "-");
   (BED_BLANK, stale_entry);
   (BED_VALID, Samples.same_chrom);
   (BED_VALID, Samples.split_chrom 300 "." "+");
   (BED_VALID, Samples.split_chrom 200 "-" "-")].

Definition header_line : line := (BED_HEADER, stale_entry).

End Runs.

(** * Properties *)

(** ** Wrap-around *)

Section Wrap.

Lemma wrap_signed_small bits z :
  1 ≤ bits → - 2 ^ (bits - 1) ≤ z < 2 ^ (bits - 1) → wrap_signed bits z = z.
Proof.
  intros Hb Hz. unfold wrap_signed.
  assert (2 ^ bits = 2 * 2 ^ (bits - 1)) as ->.
  { rewrite <- Z.pow_succ_r by lia. f_equal. lia. }
  rewrite Z.mod_small; lia.
Qed.

Lemma wrap_signed_range bits z :
  1 ≤ bits → - 2 ^ (bits - 1) ≤ wrap_signed bits z < 2 ^ (bits - 1).
Proof.
  intros Hb. unfold wrap_signed.
  assert (2 ^ bits = 2 * 2 ^ (bits - 1)) as E.
  { rewrite <- Z.pow_succ_r by lia. f_equal. lia. }
  assert (0 < 2 ^ (bits - 1)) by (apply Z.pow_pos_nonneg; lia).
  pose proof (Z.mod_pos_bound (z + 2 ^ (bits - 1)) (2 ^ bits)) as B.
  lia.
Qed.

Lemma wrap_signed_idem_add bits a b :
  wrap_signed bits (wrap_signed bits a + b) = wrap_signed bits (a + b).
Proof.
  unfold wrap_signed. f_equal.
  replace ((a + 2 ^ (bits - 1)) `mod` 2 ^ bits - 2 ^ (bits - 1) + b + 2 ^ (bits - 1))
    with ((a + 2 ^ (bits - 1)) `mod` 2 ^ bits + b) by lia.
  rewrite Zplus_mod_idemp_l. f_equal. lia.
Qed.

Lemma wrap_int_small z : INT_MIN ≤ z ≤ INT_MAX → wrap_int z = z.
Proof.
  unfold INT_MIN, INT_MAX, wrap_int. intros H.
  apply wrap_signed_small; simpl; lia.
Qed.

Lemma wrap_int_range z : INT_MIN ≤ wrap_int z ≤ INT_MAX.
Proof.
  unfold INT_MIN, INT_MAX, wrap_int.
  pose proof (wrap_signed_range 32 z). simpl in *. lia.
Qed.

Lemma wrap_chrpos_small z : CHRPOS_MIN ≤ z ≤ CHRPOS_MAX → wrap_chrpos z = z.
Proof.
  unfold CHRPOS_MIN, CHRPOS_MAX, wrap_chrpos. intros H.
  apply wrap_signed_small; simpl; lia.
Qed.

Lemma int_incr_small x : INT_MIN ≤ x < INT_MAX → int_incr x = x + 1.
Proof. intros H. unfold int_incr. apply wrap_int_small. lia. Qed.

(** An increment always changes the counter, wrapped or not. *)
Lemma int_incr_neq x : int_incr x ≠ x.
Proof.
  unfold int_incr. intros E.
  destruct (decide (INT_MIN ≤ x + 1 ≤ INT_MAX)) as [H|H].
  - rewrite wrap_int_small in E; lia.
  - pose proof (wrap_int_range (x + 1)) as R. rewrite E in R.
    assert (x = INT_MAX) as -> by lia.
    vm_compute in E. discriminate.
Qed.

Lemma chrpos_add_comm_r t d1 d2 :
  chrpos_add (chrpos_add t d1) d2 = chrpos_add (chrpos_add t d2) d1.
Proof.
  unfold chrpos_add, wrap_chrpos.
  rewrite !wrap_signed_idem_add. f_equal. lia.
Qed.

End Wrap.

(** ** The loop as a fold over the lines it runs on *)

Section Loop.

(** The reading of the loop through [GetNextBedPE]: body, read, test. *)
Lemma scan_unfold t status entry bedpe :
  scan t status entry bedpe =
    let t' := loop_body t status entry in
    let '((status', entry'), bedpe') := GetNextBedPE bedpe in
    if decide (status' = BED_INVALID) then t'
    else scan t' status' entry' bedpe'.
Proof. destruct bedpe as [|[status' entry'] bedpe']; reflexivity. Qed.

Lemma scan_foldl bedpe : ∀ t status entry,
  scan t status entry bedpe =
    foldl turn t ((status, entry) :: before_invalid bedpe).
Proof.
  induction bedpe as [|[status' entry'] bedpe' IH]; intros t status entry.
  - reflexivity.
  - cbn [scan before_invalid fst]. case_decide.
    + reflexivity.
    + rewrite IH. reflexivity.
Qed.

(** The loop ends in the state reached after all its turns. *)
Lemma scan_after_turns first bedpe :
  scan totals_init first.1 first.2 bedpe =
    after_turns (S (length (before_invalid bedpe))) first bedpe.
Proof.
  unfold after_turns. rewrite scan_foldl, firstn_all2.
  - destruct first; reflexivity.
  - simpl. lia.
Qed.

Lemma before_invalid_take k bedpe :
  before_invalid (take k (before_invalid bedpe)) = take k (before_invalid bedpe).
Proof.
  revert k. induction bedpe as [|l bedpe IH]; intros [|k]; try reflexivity.
  cbn [before_invalid]. case_decide; [reflexivity|].
  cbn [take before_invalid]. rewrite decide_False by done. by rewrite IH.
Qed.

(** On an input that ends [k] lines after the priming read, the loop ends
    in the state after [S k] turns. *)
Lemma scan_cut_short k first bedpe :
  scan totals_init first.1 first.2 (take k (before_invalid bedpe)) =
    after_turns (S k) first bedpe.
Proof.
  unfold after_turns. rewrite scan_foldl, before_invalid_take.
  destruct first; reflexivity.
Qed.

Lemma before_invalid_valid_lines records :
  before_invalid (valid_lines records) = valid_lines records.
Proof.
  induction records as [|e records IH]; [reflexivity|].
  cbn. rewrite decide_False by discriminate. f_equal. exact IH.
Qed.

End Loop.

(** ** The loop body, case by case *)

Section Body.

Variables (t : totals) (e : BEDPE).

Lemma loop_body_skip status : status ≠ BED_VALID → loop_body t status e = t.
Proof. intros H. unfold loop_body. by rewrite decide_False. Qed.

Lemma loop_body_same_chrom :
  chrom1 e = chrom2 e →
  loop_body t BED_VALID e =
    mkTotals (n_intrachrom t) (int_incr (n_interchrom t))
             (inversion t) (insertion t) (deletion t)
             (total_distance t) (accum t).
Proof.
  intros H. unfold loop_body.
  rewrite decide_True by reflexivity. by rewrite decide_True.
Qed.

(** What every record on two chromosomes gets, whatever its strands. *)
Lemma loop_body_other_chrom :
  chrom1 e ≠ chrom2 e →
  let t' := loop_body t BED_VALID e in
  n_intrachrom t' = int_incr (n_intrachrom t) ∧
  n_interchrom t' = n_interchrom t ∧
  total_distance t' =
    chrpos_add (total_distance t) (llabs (chrpos_sub (start2 e) (start1 e))) ∧
  accum t' = accum t ++ [llabs (chrpos_sub (start2 e) (start1 e))].
Proof.
  intros H. unfold loop_body.
  rewrite decide_True by reflexivity. rewrite decide_False by done.
  repeat (case_decide || case_match); simpl; done.
Qed.

End Body.

(** ** Chromosome test and strand classes *)

(** C1, evaluated on the code: the record with both ends on one chromosome
    only raises [n_interchrom], and its distance of 400 is neither stored
    nor summed and its strands are not looked at; the distance and strand
    steps are run for the record whose ends lie on two chromosomes. *)
Theorem same_chrom_only_counted :
  scan totals_init BED_VALID Samples.same_chrom [] = mkTotals 0 1 0 0 0 0 [] ∧
  scan totals_init BED_VALID (Samples.split_chrom 400 "+" "+") [] =
    mkTotals 1 0 1 0 0 400 [400].
Proof. split; vm_compute; reflexivity. Qed.

(** Counts the pairs that differ in a list of (new, old) counter pairs. *)
Local Ltac count_changed :=
  repeat first
    [ rewrite filter_cons_True by (simpl; assumption)
    | rewrite filter_cons_False by (simpl; intros N; apply N; reflexivity) ];
  simpl; lia.



(** C10: a record that reaches the strand tests (in the code, a valid
    record whose two chromosomes differ) with two equal strand
    fields that are neither "+" nor "-" raises [inversion], and leaves
    [deletion] and [insertion] alone. *)
Theorem equal_unknown_strands_are_inversions (t : totals) (e : BEDPE) :
  chrom1 e ≠ chrom2 e →
  strand1 e = strand2 e →
  strand1 e ≠ "+" → strand1 e ≠ "-" →
  let t' := loop_body t BED_VALID e in
  inversion t' = int_incr (inversion t) ∧ inversion t' ≠ inversion t ∧
  deletion t' = deletion t ∧ insertion t' = insertion t.
Proof.
  intros Hchrom Heq _ _ t'. subst t'. unfold loop_body.
  rewrite decide_True by reflexivity. rewrite decide_False by done.
  rewrite decide_True by done. cbn [inversion deletion insertion].
  repeat split. apply int_incr_neq.
Qed.

Lemma equal_unknown_strands_are_inversions_witness :
  inversion (loop_body totals_init BED_VALID (Samples.split_chrom 5 "." ".")) = 1.
Proof.
  refine (proj1 (equal_unknown_strands_are_inversions totals_init
                   (Samples.split_chrom 5 "." ".") _ _ _ _));
    vm_compute; solve [reflexivity | discriminate].
Defined.

(** ** Invariants of the totals *)

Section Invariant.

Lemma consistent_init : consistent 0 totals_init.
Proof. unfold consistent. simpl. lia. Qed.

Lemma consistent_other_line v t l :
  l.1 ≠ BED_VALID → consistent v t → consistent v (turn t l).
Proof. intros H C. unfold turn. by rewrite loop_body_skip. Qed.

(** One more valid record keeps the totals consistent, as long as the
    count of records still fits an [int]. *)
Lemma consistent_valid_line v t l :
  l.1 = BED_VALID → v < INT_MAX → consistent v t → consistent (v + 1) (turn t l).
Proof.
  intros Hv Hmax (I1 & I2 & I3 & I4 & I5 & Sum & Cls & Len).
  unfold turn, loop_body. rewrite Hv, decide_True by reflexivity.
  assert (INT_MIN ≤ 0) by (vm_compute; discriminate).
  repeat (case_decide || case_match); unfold consistent;
    cbn [n_interchrom n_intrachrom inversion insertion deletion accum];
    rewrite ?length_app; cbn [length];
    rewrite ?int_incr_small by lia; lia.
Qed.

Lemma consistent_foldl ls : ∀ v t,
  consistent v t →
  v + Z.of_nat (length (filter (λ l : line, l.1 = BED_VALID) ls)) ≤ INT_MAX →
  consistent (v + Z.of_nat (length (filter (λ l : line, l.1 = BED_VALID) ls)))
             (foldl turn t ls).
Proof.
  induction ls as [|l ls IH]; intros v t C Hmax.
  - simpl. by rewrite Z.add_0_r.
  - cbn [foldl]. destruct (decide (l.1 = BED_VALID)) as [Hv|Hv].
    + rewrite filter_cons_True in * by done. cbn [length] in *.
      replace (v + Z.of_nat (S (length (filter (λ l0 : line, l0.1 = BED_VALID) ls))))
        with ((v + 1) + Z.of_nat (length (filter (λ l0 : line, l0.1 = BED_VALID) ls)))
        by lia.
      apply IH; [apply consistent_valid_line; [done|lia|done]|lia].
    + rewrite filter_cons_False in * by done.
      apply IH; [by apply consistent_other_line|done].
Qed.

End Invariant.



(** ** The median *)

Section Median.

(** [std::sort] returns the one ascending arrangement of its input. *)
Lemma std_sort_unique (l s : list Z) :
  s ≡ₚ l → Sorted Z.le s → std_sort l = s.
Proof.
  intros Hperm Hsorted. unfold std_sort.
  apply (Sorted_unique Z.le).
  - apply Sorted_merge_sort. apply _.
  - exact Hsorted.
  - rewrite merge_sort_Permutation. by symmetry.
Qed.

Lemma std_sort_perm (l l' : list Z) : l ≡ₚ l' → std_sort l = std_sort l'.
Proof.
  intros Hperm. apply std_sort_unique.
  - unfold std_sort. rewrite merge_sort_Permutation. by symmetry.
  - apply Sorted_merge_sort. apply _.
Qed.

Lemma vec_at_nth (v : list Z) (i : nat) (d : Z) :
  (i < length v)%nat → vec_at v (Z.of_nat i) = Defined (nth i v d).
Proof.
  intros Hi. unfold vec_at. rewrite decide_True by lia.
  rewrite Nat2Z.id, (nth_lookup v i d).
  destruct (lookup_lt_is_Some_2 v i Hi) as [x ->]. reflexivity.
Qed.

Lemma vec_at_empty (i : Z) : vec_at (@nil Z) i = Undefined IndexOutOfRange.
Proof. unfold vec_at. rewrite decide_False; [reflexivity|simpl; lia]. Qed.

Lemma half_range_nth (s : list Z) (i : nat) :
  Forall half_range s → (i < length s)%nat → half_range (nth i s 0).
Proof.
  intros Hall Hi. rewrite Forall_forall in Hall. apply Hall.
  apply list_elem_of_In, nth_In, Hi.
Qed.

End Median.



(** ** Order of the records *)

Section Order.

Lemma same_totals_refl t : same_totals t t.
Proof. unfold same_totals. repeat split; done. Qed.

Lemma same_totals_trans t1 t2 t3 :
  same_totals t1 t2 → same_totals t2 t3 → same_totals t1 t3.
Proof.
  unfold same_totals.
  intros (-> & -> & -> & -> & -> & -> & P1) (-> & -> & -> & -> & -> & -> & P2).
  repeat split; try done. by rewrite P1.
Qed.

Lemma turn_same_totals t t' l :
  same_totals t t' → same_totals (turn t l) (turn t' l).
Proof.
  destruct t, t'. unfold same_totals, turn, loop_body. simpl.
  intros (-> & -> & -> & -> & -> & -> & P).
  repeat (case_decide || case_match); simpl; repeat split; try done;
    by rewrite P.
Qed.

Lemma snoc_snoc_perm (acc : list Z) d1 d2 :
  (acc ++ [d1]) ++ [d2] ≡ₚ (acc ++ [d2]) ++ [d1].
Proof.
  rewrite <- !app_assoc. apply Permutation_app_head. simpl. apply perm_swap.
Qed.

Lemma turn_effect t l : turn t l = apply_effect (line_effect l) t.
Proof.
  destruct t, l as [status e]. unfold turn, loop_body, line_effect, apply_effect.
  cbn [fst snd]. repeat (case_decide || case_match); reflexivity.
Qed.

Lemma incr_if_exchange a b x : incr_if a (incr_if b x) = incr_if b (incr_if a x).
Proof. by destruct a, b. Qed.

Lemma add_measured_exchange m1 m2 total :
  add_measured m1 (add_measured m2 total)
  = add_measured m2 (add_measured m1 total).
Proof. destruct m1, m2; simpl; try done. apply chrpos_add_comm_r. Qed.

Lemma push_measured_exchange m1 m2 (acc : list Z) :
  push_measured m1 (push_measured m2 acc)
  ≡ₚ push_measured m2 (push_measured m1 acc).
Proof. destruct m1, m2; simpl; try done. apply snoc_snoc_perm. Qed.

(** Two turns of the loop can be exchanged. *)
Lemma turn_exchange t a b :
  same_totals (turn (turn t a) b) (turn (turn t b) a).
Proof.
  rewrite !turn_effect. unfold same_totals, apply_effect.
  cbn [n_intrachrom n_interchrom inversion insertion deletion
       total_distance accum].
  repeat split;
    first [ apply incr_if_exchange | apply add_measured_exchange
          | apply push_measured_exchange ].
Qed.

Lemma foldl_turn_same_totals ls : ∀ t t',
  same_totals t t' → same_totals (foldl turn t ls) (foldl turn t' ls).
Proof.
  induction ls as [|l ls IH]; intros t t' H; [done|].
  simpl. apply IH. by apply turn_same_totals.
Qed.

(** The totals do not depend on the order in which the lines come. *)
Lemma foldl_turn_perm ls ls' :
  ls ≡ₚ ls' → ∀ t, same_totals (foldl turn t ls) (foldl turn t ls').
Proof.
  induction 1 as [|l ls ls' _ IH|a b ls|ls1 ls2 ls3 _ IH1 _ IH2]; intros t.
  - apply same_totals_refl.
  - simpl. apply IH.
  - simpl. apply foldl_turn_same_totals, turn_exchange.
  - eapply same_totals_trans; [apply IH1|apply IH2].
Qed.

Lemma mean_len_same_totals t t' :
  same_totals t t' →
  mean_len (total_distance t) (n_intrachrom t)
  = mean_len (total_distance t') (n_intrachrom t').
Proof. intros (-> & _ & _ & _ & _ & -> & _). reflexivity. Qed.

(** Everything printed depends on the buffer through its sorted form only. *)
Lemma finalize_same_totals t t' :
  same_totals t t' → finalize t = finalize t'.
Proof.
  intros H. unfold finalize. rewrite (mean_len_same_totals t t' H).
  destruct H as (-> & -> & -> & -> & -> & _ & P).
  unfold calc_median_chrposv. by rewrite (std_sort_perm _ _ P).
Qed.

End Order.

(** C9: two runs over the same valid records in different orders print the
    same report: the five counters, the mean, the median and the
    histogram with its minimum, bin width and bin counts (and where one
    run has no defined value for a field, neither has the other). *)
Theorem report_order_independent (records records' : list BEDPE) :
  records ≡ₚ records' →
  ProcessBedPE_summary (valid_lines records)
  = ProcessBedPE_summary (valid_lines records').
Proof.
  intros Hperm.
  destruct records as [|e records], records' as [|e' records'].
  - reflexivity.
  - by apply Permutation_nil_cons in Hperm.
  - symmetry in Hperm. by apply Permutation_nil_cons in Hperm.
  - unfold ProcessBedPE_summary. cbn [valid_lines fmap list_fmap GetNextBedPE].
    rewrite !decide_False by discriminate. f_equal.
    apply finalize_same_totals.
    rewrite !scan_foldl.
    change (list_fmap BEDPE line (λ e0, (BED_VALID, e0))) with valid_lines.
    rewrite !before_invalid_valid_lines.
    change ((BED_VALID, e) :: valid_lines records)
      with (valid_lines (e :: records)).
    change ((BED_VALID, e') :: valid_lines records')
      with (valid_lines (e' :: records')).
    apply foldl_turn_perm. unfold valid_lines. by apply fmap_Permutation.
Qed.

Lemma report_order_independent_witness :
  ProcessBedPE_summary (valid_lines
    [Samples.split_chrom 100 "+" "-"; Samples.same_chrom;
     Samples.split_chrom 300 "-" "+"])
  = ProcessBedPE_summary (valid_lines
    [Samples.split_chrom 300 "-" "+"; Samples.split_chrom 100 "+" "-";
     Samples.same_chrom]).
Proof.
  apply report_order_independent.
  apply (bool_decide_unpack _). vm_compute. exact I.
Defined.

(** ** The mean *)

Section Mean.

Lemma round_binary64_small z : Z.abs z < 2 ^ 53 → round_binary64 z = z.
Proof. intros H. unfold round_binary64. by rewrite decide_True. Qed.

(** With records to divide by, the mean is the truncated quotient (exactly
    so while the quotient has at most 53 bits, which a double carries). *)
Lemma mean_len_nonzero total n :
  n ≠ 0 → Z.abs (total ÷ n) < 2 ^ 53 → mean_len total n = Defined (total ÷ n).
Proof.
  intros Hn Hq. unfold mean_len, chrpos_div.
  rewrite decide_True by done. rewrite decide_False by done.
  assert (2 ^ 53 = 9007199254740992) as E53 by reflexivity.
  rewrite wrap_chrpos_small by (unfold CHRPOS_MIN, CHRPOS_MAX; lia).
  cbn [fmap outcome_fmap mbind outcome_bind double_of_chrpos chrpos_of_double].
  rewrite round_binary64_small by done.
  rewrite decide_True by (unfold CHRPOS_MIN, CHRPOS_MAX; lia). reflexivity.
Qed.

Lemma mean_len_zero total : mean_len total 0 = Undefined FloatToInteger.
Proof. reflexivity. Qed.

(** The division of line 170 is never reached with a zero divisor. *)
Lemma mean_len_no_division_by_zero total n :
  mean_len total n ≠ Undefined DivisionByZero.
Proof.
  unfold mean_len, chrpos_div. case_decide.
  - rewrite decide_False by done.
    cbn [fmap outcome_fmap mbind outcome_bind double_of_chrpos chrpos_of_double].
    by case_decide.
  - done.
Qed.

End Mean.

(** C6, evaluated on the code: in a run without buffered distances
    [n_intrachrom] is 0 and the NaN of line 170 is converted to [CHRPOS],
    a conversion without a defined result, so what is printed as the mean
    is an integer and not a NaN; the same holds for every
    [total_distance]. *)
Theorem mean_without_distances_is_no_nan :
  r_mean_len <$> ProcessBedPE_summary (valid_lines [Samples.same_chrom])
    = Some (Undefined FloatToInteger) ∧
  ∀ total, mean_len total 0 = Undefined FloatToInteger.
Proof. split; [vm_compute; reflexivity|apply mean_len_zero]. Qed.

(** C2, evaluated on the code: on the empty buffer the function reads
    [accum[n / 2 - 1]] and [accum[n / 2]] with [n = 0], outside the
    vector; [ProcessBedPE_summary] calls it without a test, as in the run
    over one record with both ends on one chromosome. *)
Theorem median_of_empty_buffer_unguarded :
  calc_median_chrposv [] = ([], Undefined IndexOutOfRange) ∧
  r_median_len <$> ProcessBedPE_summary (valid_lines [Samples.same_chrom])
    = Some (Undefined IndexOutOfRange).
Proof. split; vm_compute; reflexivity. Qed.

(** ** The histogram *)

Section Histogram.

Lemma bind_Defined {A B : Type} (a : A) (k : A → outcome B) :
  (Defined a ≫= k) = k a.
Proof. reflexivity. Qed.

Lemma fill_bins_cons mn bw nb value data bins :
  fill_bins mn bw nb (value :: data) bins =
    (bin_idx ← bin_index mn bw nb value;
     bin_data' ← bump bins bin_idx;
     fill_bins mn bw nb data bin_data').
Proof. reflexivity. Qed.

Lemma sum_bins_replicate n : sum_bins (replicate n 0) = 0.
Proof. induction n as [|n IH]; [reflexivity|]. simpl. exact IH. Qed.

Lemma sum_bins_insert (bins : list Z) i c x :
  bins !! i = Some c → sum_bins (<[i := x]> bins) = sum_bins bins - c + x.
Proof.
  revert i. induction bins as [|b bins IH]; intros [|i] H; try done.
  - injection H as ->. simpl. lia.
  - simpl in *. rewrite (IH i H). lia.
Qed.

Lemma sum_bins_bound (bins : list Z) i c :
  Forall (Z.le 0) bins → bins !! i = Some c → 0 ≤ c ≤ sum_bins bins.
Proof.
  intros Hall. revert i. induction Hall as [|b bins Hb Hall IH]; intros [|i] H;
    try done.
  - injection H as ->. simpl.
    assert (0 ≤ sum_bins bins); [|lia].
    clear IH. induction Hall; simpl; [done|lia].
  - simpl in *. specialize (IH i H). lia.
Qed.

(** The index stays inside the bins when the truncation of the bin width
    loses less than one bin width: [(max_val - min_val) mod num_bins <
    bin_width]. *)
Lemma bin_index_in_bins mn mx nb bw value :
  0 < nb ≤ INT_MAX →
  0 ≤ mn → mn ≤ value → value ≤ mx → mx ≤ CHRPOS_MAX →
  bw = (mx - mn) `div` nb → bw ≠ 0 →
  (mx - mn) `mod` nb < bw →
  ∃ i, bin_index mn bw nb value = Defined i ∧ 0 ≤ i ≤ nb - 1.
Proof.
  intros Hnb Hmn Hlo Hhi Hmx Hbw Hnz Hrem.
  assert (2 ^ 63 = 9223372036854775808) as E63 by reflexivity.
  assert (2 ^ 31 = 2147483648) as E31 by reflexivity.
  unfold INT_MAX, CHRPOS_MAX in *.
  pose proof (Z.div_mod (mx - mn) nb ltac:(lia)) as Hdm.
  pose proof (Z.mod_pos_bound (mx - mn) nb ltac:(lia)) as Hmb.
  assert (0 < bw) as Hpos.
  { assert (0 ≤ bw) by (subst bw; apply Z.div_pos; lia). lia. }
  rewrite <- Hbw in Hdm.
  set (q := (value - mn) `div` bw).
  assert (0 ≤ q ≤ nb) as Hq.
  { subst q. split; [apply Z.div_pos; lia|].
    assert ((value - mn) `div` bw < nb + 1); [|lia].
    apply Z.div_lt_upper_bound; [lia|]. nia. }
  assert (q ≤ value - mn) as Hqv.
  { subst q. apply Z.div_le_upper_bound; [lia|]. nia. }
  unfold bin_index, chrpos_div, chrpos_sub.
  rewrite decide_False by done.
  rewrite (wrap_chrpos_small (value - mn))
    by (unfold CHRPOS_MIN, CHRPOS_MAX; lia).
  rewrite Z.quot_div_nonneg by lia. fold q.
  rewrite wrap_chrpos_small by (unfold CHRPOS_MIN, CHRPOS_MAX; lia).
  rewrite bind_Defined.
  rewrite wrap_int_small by (unfold INT_MIN, INT_MAX; lia).
  case_decide as Hlast.
  - eexists. split; [reflexivity|]. unfold int_decr.
    rewrite wrap_int_small by (unfold INT_MIN, INT_MAX; lia). lia.
  - eexists. split; [reflexivity|]. lia.
Qed.

(** A defined increment adds one to the total of the counts. *)
Lemma bump_sum bins idx bins' :
  bump bins idx = Defined bins' →
  Forall (Z.le 0) bins → sum_bins bins < INT_MAX →
  Forall (Z.le 0) bins' ∧ sum_bins bins' = sum_bins bins + 1 ∧
  length bins' = length bins.
Proof.
  unfold bump, vec_at. intros Hb Hall Hmax.
  case_decide; [|done].
  destruct (bins !! Z.to_nat (wrap_unsigned 64 idx)) as [c|] eqn:Hc; [|done].
  cbn [mbind outcome_bind mret outcome_ret] in Hb. injection Hb as <-.
  pose proof (sum_bins_bound _ _ _ Hall Hc) as Hcb.
  assert (INT_MIN ≤ 0) by (vm_compute; discriminate).
  rewrite int_incr_small by lia.
  split; [|split].
  - apply Forall_insert; [done|lia].
  - rewrite (sum_bins_insert _ _ c) by done. lia.
  - apply length_insert.
Qed.

Lemma fill_bins_sum mn bw nb data : ∀ bins bins',
  fill_bins mn bw nb data bins = Defined bins' →
  Forall (Z.le 0) bins →
  sum_bins bins + Z.of_nat (length data) ≤ INT_MAX →
  sum_bins bins' = sum_bins bins + Z.of_nat (length data) ∧
  length bins' = length bins.
Proof.
  induction data as [|value data IH]; intros bins bins' Hf Hall Hmax.
  - injection Hf as <-. simpl. lia.
  - cbn [fill_bins] in Hf.
    destruct (bin_index mn bw nb value) as [idx|]; [|done].
    cbn [mbind outcome_bind] in Hf.
    destruct (bump bins idx) as [bins1|] eqn:Hb; [|done].
    cbn [mbind outcome_bind] in Hf. cbn [length] in Hmax.
    destruct (bump_sum _ _ _ Hb Hall) as (Hall1 & Hsum1 & Hlen1); [lia|].
    destruct (IH bins1 bins' Hf Hall1) as [Hsum Hlen]; [lia|].
    cbn [length]. lia.
Qed.

(** Where the constructor has a defined result, its bin counts add up to
    the number of values, or to 0 when the bin width is 0 (which covers
    the empty input). *)
Lemma HistogramData_ctor_sum data num_bins h :
  HistogramData_ctor data num_bins = Defined h →
  Z.of_nat (length data) ≤ INT_MAX →
  length (bin_data h) = Z.to_nat num_bins ∧
  sum_bins (bin_data h) =
    if decide (bin_width h = 0) then 0 else Z.of_nat (length data).
Proof.
  unfold HistogramData_ctor. intros Hh Hmax.
  case_decide; [done|].
  destruct (bool_decide (data = []) || bool_decide (num_bins ≤ 0)).
  - injection Hh as <-. simpl.
    by rewrite length_replicate, sum_bins_replicate.
  - destruct (chrpos_div _ num_bins) as [bw|]; [|done].
    cbn [mbind outcome_bind] in Hh. case_decide as Hbw.
    + injection Hh as <-. simpl. rewrite decide_True by done.
      by rewrite length_replicate, sum_bins_replicate.
    + destruct (fill_bins _ bw num_bins data _) as [bins|] eqn:Hf; [|done].
      cbn [mbind outcome_bind] in Hh. injection Hh as <-. simpl.
      rewrite decide_False by done.
      apply fill_bins_sum in Hf.
      * rewrite sum_bins_replicate, length_replicate in Hf.
        destruct Hf as [-> ->]. split; [done|lia].
      * apply Forall_replicate. lia.
      * rewrite sum_bins_replicate. lia.
Qed.

End Histogram.

(** C3, evaluated on the code: for the distances 0 and 19 the bin width is
    1 and the value 19, the maximum, gets the index 19; only an index
    equal to the bin count of 10 is moved into the last bin, so the
    increment is applied outside the ten bins. *)
Theorem bin_index_beyond_last_bin :
  chrpos_div (chrpos_sub (max_element [0; 19]) (min_element [0; 19])) 10
    = Defined 1 ∧
  bin_index 0 1 10 19 = Defined 19 ∧
  bump (replicate 10 0) 19 = Undefined IndexOutOfRange.
Proof. repeat split; vm_compute; reflexivity. Qed.

(** C8, evaluated on the code: the run over two records with the distances
    0 and 19 buffers two distances, and the histogram has no defined bin
    counts, the second increment falling outside the bins. *)
Theorem bin_counts_lose_a_record :
  r_n_intrachrom <$> ProcessBedPE_summary (valid_lines Samples.wide_pair)
    = Some 2 ∧
  r_hist <$> ProcessBedPE_summary (valid_lines Samples.wide_pair)
    = Some (Undefined IndexOutOfRange) ∧
  HistogramData_ctor [0; 19] 10 = Undefined IndexOutOfRange.
Proof. repeat split; vm_compute; reflexivity. Qed.

(** ** Divisions *)

Section Divisions.

Lemma chrpos_div_nonzero x y :
  y ≠ 0 → chrpos_div x y = Defined (wrap_chrpos (x ÷ y)).
Proof. intros H. unfold chrpos_div. by rewrite decide_False. Qed.

Lemma vec_at_fault {A : Type} (v : list A) i f :
  vec_at v i = Undefined f → f = IndexOutOfRange.
Proof. unfold vec_at. repeat (case_decide || case_match); congruence. Qed.

Lemma calc_median_no_division_by_zero accum :
  (calc_median_chrposv accum).2 ≠ Undefined DivisionByZero.
Proof.
  unfold calc_median_chrposv. cbn [snd].
  generalize (std_sort accum). intros s.
  generalize (Z.of_nat (length s)). intros n.
  case_decide.
  - intros E. by apply vec_at_fault in E.
  - destruct (vec_at s (size_sub _ 1)) as [a|f] eqn:Ea.
    + destruct (vec_at s (n `div` 2)) as [b|f] eqn:Eb.
      * cbn [mbind outcome_bind]. by rewrite chrpos_div_nonzero.
      * cbn [mbind outcome_bind]. apply vec_at_fault in Eb. by subst f.
    + cbn [mbind outcome_bind]. apply vec_at_fault in Ea. by subst f.
Qed.

Lemma bump_fault bins idx f :
  bump bins idx = Undefined f → f = IndexOutOfRange.
Proof.
  unfold bump. destruct (vec_at bins _) as [c|f'] eqn:E; [done|].
  cbn [mbind outcome_bind]. intros [= <-]. by apply vec_at_fault in E.
Qed.

Lemma fill_bins_no_division_by_zero mn bw nb data : ∀ bins,
  bw ≠ 0 → fill_bins mn bw nb data bins ≠ Undefined DivisionByZero.
Proof.
  induction data as [|value data IH]; intros bins Hbw; [done|].
  rewrite fill_bins_cons. unfold bin_index. rewrite chrpos_div_nonzero by done.
  rewrite !bind_Defined.
  destruct (bump bins _) as [bins'|f] eqn:Eb.
  - by apply IH.
  - apply bump_fault in Eb. by subst f.
Qed.

Lemma HistogramData_ctor_no_division_by_zero data num_bins :
  HistogramData_ctor data num_bins ≠ Undefined DivisionByZero.
Proof.
  unfold HistogramData_ctor. case_decide; [done|].
  destruct (bool_decide (data = [])); [done|].
  cbn [orb]. case_bool_decide; [done|].
  rewrite chrpos_div_nonzero by lia. cbn [mbind outcome_bind].
  case_decide; [done|].
  destruct (fill_bins _ _ _ _ _) eqn:Hf; [done|].
  cbn [mbind outcome_bind]. intros [= ->].
  by apply fill_bins_no_division_by_zero in Hf.
Qed.

(** No run divides by zero, whatever it reads. *)
Lemma report_no_division_by_zero bedpe r :
  ProcessBedPE_summary bedpe = Some r →
  r_mean_len r ≠ Undefined DivisionByZero ∧
  r_median_len r ≠ Undefined DivisionByZero ∧
  r_hist r ≠ Undefined DivisionByZero.
Proof.
  unfold ProcessBedPE_summary.
  destruct (GetNextBedPE bedpe) as [[status entry] rest].
  case_decide; [done|]. intros [= <-]. unfold finalize.
  pose proof (calc_median_no_division_by_zero
                (accum (scan totals_init status entry rest))) as Hm.
  destruct (calc_median_chrposv _) as [accum' median]. cbn [snd] in Hm.
  cbn [r_mean_len r_median_len r_hist].
  split; [apply mean_len_no_division_by_zero|].
  split; [done|apply HistogramData_ctor_no_division_by_zero].
Qed.

End Divisions.

(** * Further properties of the code *)

(** ** What the totals count *)

Section Counting.

Lemma valid_records_cons_valid l ls :
  l.1 = BED_VALID → valid_records (l :: ls) = l.2 :: valid_records ls.
Proof. intros H. unfold valid_records. by rewrite filter_cons_True. Qed.

Lemma valid_records_cons_other l ls :
  l.1 ≠ BED_VALID → valid_records (l :: ls) = valid_records ls.
Proof. intros H. unfold valid_records. by rewrite filter_cons_False. Qed.

Lemma valid_records_valid_lines recs : valid_records (valid_lines recs) = recs.
Proof.
  induction recs as [|e recs IH]; [reflexivity|].
  change (valid_lines (e :: recs)) with ((BED_VALID, e) :: valid_lines recs).
  rewrite valid_records_cons_valid by reflexivity. by rewrite IH.
Qed.

(** Lines that are not valid records leave no trace in the totals. *)
Lemma foldl_turn_valid_only ls : ∀ t,
  foldl turn t ls = foldl turn t (valid_lines (valid_records ls)).
Proof.
  induction ls as [|[status e] ls IH]; intros t; [reflexivity|].
  destruct (decide (status = BED_VALID)) as [->|Hs].
  - rewrite valid_records_cons_valid by reflexivity. cbn. apply IH.
  - rewrite valid_records_cons_other by done. cbn [foldl].
    unfold turn at 2. cbn [fst snd]. rewrite loop_body_skip by done. apply IH.
Qed.

Lemma count_recs_cons P `{∀ e, Decision (P e)} e recs :
  count_recs P (e :: recs) = (if decide (P e) then 1 else 0) + count_recs P recs.
Proof.
  unfold count_recs. case_decide.
  - rewrite filter_cons_True by done. cbn [length]. lia.
  - rewrite filter_cons_False by done. lia.
Qed.

Lemma count_recs_bounds P `{∀ e, Decision (P e)} recs :
  0 ≤ count_recs P recs ≤ Z.of_nat (length recs).
Proof.
  unfold count_recs. pose proof (length_filter P recs). lia.
Qed.

(** What a valid record does to the totals, in terms of the tests it
    passes. *)
Lemma line_effect_valid e :
  line_effect (BED_VALID, e) =
    mkEffect (bool_decide (measured_rec e)) (bool_decide (counted_rec e))
             (bool_decide (inversion_rec e)) (bool_decide (insertion_rec e))
             (bool_decide (deletion_rec e))
             (if decide (measured_rec e) then Some (distance_of e) else None).
Proof.
  unfold line_effect, measured_rec, counted_rec, inversion_rec, insertion_rec,
    deletion_rec, distance_of. cbn [fst snd].
  rewrite decide_True by reflexivity.
  destruct (decide (chrom1 e = chrom2 e)) as [Hc|Hc].
  - rewrite (bool_decide_eq_false_2 (chrom1 e ≠ chrom2 e)) by tauto.
    rewrite (bool_decide_eq_true_2 (chrom1 e = chrom2 e)) by done.
    rewrite !bool_decide_eq_false_2 by tauto.
    rewrite decide_False by tauto. reflexivity.
  - rewrite (bool_decide_eq_true_2 (chrom1 e ≠ chrom2 e)) by done.
    rewrite (bool_decide_eq_false_2 (chrom1 e = chrom2 e)) by done.
    rewrite (decide_True (P := chrom1 e ≠ chrom2 e)) by done.
    destruct (decide (strand1 e = strand2 e)) as [Hs|Hs].
    + rewrite (bool_decide_eq_true_2 (_ ∧ strand1 e = strand2 e)) by done.
      rewrite !bool_decide_eq_false_2; [reflexivity| |];
        intros (_ & A & B); rewrite A, B in Hs; discriminate.
    + rewrite (bool_decide_eq_false_2 (_ ∧ strand1 e = strand2 e)) by tauto.
      destruct (decide (strand1 e = "+")) as [P1|P1],
               (decide (strand2 e = "-")) as [M2|M2],
               (decide (strand1 e = "-")) as [M1|M1],
               (decide (strand2 e = "+")) as [P2|P2];
        try (rewrite P1 in M1; discriminate);
        try (rewrite M2 in P2; discriminate);
        repeat first
          [ rewrite (bool_decide_eq_true_2 (strand1 e = "+")) by done
          | rewrite (bool_decide_eq_false_2 (strand1 e = "+")) by done
          | rewrite (bool_decide_eq_true_2 (strand2 e = "-")) by done
          | rewrite (bool_decide_eq_false_2 (strand2 e = "-")) by done
          | rewrite (bool_decide_eq_true_2 (strand1 e = "-")) by done
          | rewrite (bool_decide_eq_false_2 (strand1 e = "-")) by done
          | rewrite (bool_decide_eq_true_2 (strand2 e = "+")) by done
          | rewrite (bool_decide_eq_false_2 (strand2 e = "+")) by done ];
        cbn [andb];
        repeat first
          [ rewrite (bool_decide_eq_true_2 (_ ∧ _ ∧ _)) by done
          | rewrite (bool_decide_eq_false_2 (_ ∧ _ ∧ _)) by tauto ];
        reflexivity.
Qed.

Lemma incr_if_small P `{Decision P} c :
  0 ≤ c < INT_MAX →
  incr_if (bool_decide P) c = c + (if decide P then 1 else 0).
Proof.
  intros Hc. assert (INT_MIN ≤ 0) by (vm_compute; discriminate).
  unfold incr_if. destruct (decide P).
  - rewrite bool_decide_eq_true_2 by done. apply int_incr_small. lia.
  - rewrite bool_decide_eq_false_2 by done. lia.
Qed.

(** The totals after a run of valid records that starts from [t], while no
    counter passes [INT_MAX]. *)
Lemma foldl_turn_counts recs : ∀ t bound,
  0 ≤ n_intrachrom t ≤ bound → 0 ≤ n_interchrom t ≤ bound →
  0 ≤ inversion t ≤ bound → 0 ≤ insertion t ≤ bound →
  0 ≤ deletion t ≤ bound →
  bound + Z.of_nat (length recs) ≤ INT_MAX →
  foldl turn t (valid_lines recs) =
    mkTotals (n_intrachrom t + count_recs measured_rec recs)
             (n_interchrom t + count_recs counted_rec recs)
             (inversion t + count_recs inversion_rec recs)
             (insertion t + count_recs insertion_rec recs)
             (deletion t + count_recs deletion_rec recs)
             (foldl chrpos_add (total_distance t)
                    (distance_of <$> filter measured_rec recs))
             (accum t ++ (distance_of <$> filter measured_rec recs)).
Proof.
  induction recs as [|e recs IH]; intros t bound H1 H2 H3 H4 H5 Hb.
  - destruct t. unfold count_recs. cbn. rewrite app_nil_r.
    f_equal; lia.
  - change (valid_lines (e :: recs)) with ((BED_VALID, e) :: valid_lines recs).
    cbn [foldl length] in *.
    rewrite turn_effect, line_effect_valid. unfold apply_effect.
    cbn [on_intrachrom on_interchrom on_inversion on_insertion on_deletion
         measured].
    rewrite !incr_if_small by lia.
    rewrite (IH _ (bound + 1));
      cbn [n_intrachrom n_interchrom inversion insertion deletion
           total_distance accum];
      try (repeat case_decide; lia).
    rewrite !count_recs_cons.
    destruct (decide (measured_rec e)) as [Hm|Hm].
    + rewrite filter_cons_True by done.
      cbn [fmap list_fmap foldl add_measured push_measured].
      rewrite <- app_assoc. cbn [app]. f_equal; lia.
    + rewrite filter_cons_False by done.
      cbn [add_measured push_measured]. f_equal; lia.
Qed.

End Counting.

(** X1: at the end of the loop [n_interchrom] is the number of valid
    records whose two chromosomes are equal, [n_intrachrom] the number of
    those whose chromosomes differ, and [accum] holds the distances of the
    latter in the order in which they were read (for runs whose number of
    valid records an [int] can hold). *)
Theorem loop_counts_by_chromosome (first : line) (bedpe : list line) :
  Z.of_nat (length (run_records first bedpe)) ≤ INT_MAX →
  let t := scan totals_init first.1 first.2 bedpe in
  n_interchrom t = count_recs counted_rec (run_records first bedpe) ∧
  n_intrachrom t = count_recs measured_rec (run_records first bedpe) ∧
  accum t = distance_of <$> filter measured_rec (run_records first bedpe).
Proof.
  intros Hmax t. subst t. unfold run_records in *.
  destruct first as [status e]. rewrite scan_foldl. cbn [fst snd].
  rewrite foldl_turn_valid_only.
  rewrite (foldl_turn_counts _ totals_init 0);
    [|simpl; lia..|rewrite Z.add_0_l; exact Hmax].
  cbn [n_interchrom n_intrachrom accum totals_init]. rewrite !Z.add_0_l.
  done.
Qed.

Lemma loop_counts_by_chromosome_witness :
  n_interchrom (scan totals_init BED_HEADER stale_entry Runs.headed) = 1 ∧
  n_intrachrom (scan totals_init BED_HEADER stale_entry Runs.headed) = 3 ∧
  accum (scan totals_init BED_HEADER stale_entry Runs.headed) = [100; 300; 200].
Proof.
  refine (loop_counts_by_chromosome Runs.header_line Runs.headed _).
  vm_compute. discriminate.
Defined.

(** X2: at the end of the loop [inversion], [deletion] and [insertion] are
    the numbers of valid records on two chromosomes whose strands are
    equal, are "+" then "-", and are "-" then "+" (for runs whose number
    of valid records an [int] can hold). *)
Theorem loop_counts_by_strand (first : line) (bedpe : list line) :
  Z.of_nat (length (run_records first bedpe)) ≤ INT_MAX →
  let t := scan totals_init first.1 first.2 bedpe in
  inversion t = count_recs inversion_rec (run_records first bedpe) ∧
  deletion t = count_recs deletion_rec (run_records first bedpe) ∧
  insertion t = count_recs insertion_rec (run_records first bedpe).
Proof.
  intros Hmax t. subst t. unfold run_records in *.
  destruct first as [status e]. rewrite scan_foldl. cbn [fst snd].
  rewrite foldl_turn_valid_only.
  rewrite (foldl_turn_counts _ totals_init 0);
    [|simpl; lia..|rewrite Z.add_0_l; exact Hmax].
  cbn [inversion deletion insertion totals_init]. rewrite !Z.add_0_l.
  done.
Qed.

Lemma loop_counts_by_strand_witness :
  inversion (scan totals_init BED_HEADER stale_entry Runs.headed) = 1 ∧
  deletion (scan totals_init BED_HEADER stale_entry Runs.headed) = 1 ∧
  insertion (scan totals_init BED_HEADER stale_entry Runs.headed) = 0.
Proof.
  refine (loop_counts_by_strand Runs.header_line Runs.headed _).
  vm_compute. discriminate.
Defined.

(** ** The sum of the distances *)

Section Sum.

Lemma sum_chrpos_snoc ds d : sum_chrpos (ds ++ [d]) = sum_chrpos ds + d.
Proof. induction ds as [|x ds IH]; simpl; [lia|]. rewrite IH. lia. Qed.

Lemma wrap_chrpos_zero : wrap_chrpos 0 = 0.
Proof. reflexivity. Qed.

(** A turn keeps [total_distance] equal to the wrapped sum of [accum]. *)
Lemma turn_total_is_sum t l :
  total_distance t = wrap_chrpos (sum_chrpos (accum t)) →
  total_distance (turn t l) = wrap_chrpos (sum_chrpos (accum (turn t l))).
Proof.
  intros H. rewrite turn_effect. unfold apply_effect.
  cbn [total_distance accum].
  destruct (measured (line_effect l)) as [d|]; cbn [add_measured push_measured].
  - rewrite sum_chrpos_snoc, H. unfold chrpos_add, wrap_chrpos.
    apply wrap_signed_idem_add.
  - exact H.
Qed.

Lemma foldl_turn_total_is_sum ls : ∀ t,
  total_distance t = wrap_chrpos (sum_chrpos (accum t)) →
  total_distance (foldl turn t ls)
  = wrap_chrpos (sum_chrpos (accum (foldl turn t ls))).
Proof.
  induction ls as [|l ls IH]; intros t H; [exact H|].
  cbn [foldl]. apply IH. by apply turn_total_is_sum.
Qed.

End Sum.

(** X3: at the end of the loop [total_distance] is the sum of the buffered
    distances, brought back into 64 bits; the running sum never loses
    track of a distance it has buffered. *)
Theorem total_distance_is_sum_of_accum (first : line) (bedpe : list line) :
  total_distance (scan totals_init first.1 first.2 bedpe)
  = wrap_chrpos (sum_chrpos (accum (scan totals_init first.1 first.2 bedpe))).
Proof.
  rewrite scan_foldl. apply foldl_turn_total_is_sum. reflexivity.
Qed.

(** ** Lines that are not records, and the end of the input *)

Section Lines.

Lemma before_invalid_app_invalid pre e post :
  before_invalid (pre ++ (BED_INVALID, e) :: post) = before_invalid pre.
Proof.
  induction pre as [|l pre IH].
  - cbn. reflexivity.
  - cbn [app before_invalid]. case_decide; [reflexivity|]. by rewrite IH.
Qed.

Lemma foldl_turn_before_invalid_insert pre status e post : ∀ t,
  status ≠ BED_VALID → status ≠ BED_INVALID →
  foldl turn t (before_invalid (pre ++ (status, e) :: post))
  = foldl turn t (before_invalid (pre ++ post)).
Proof.
  induction pre as [|l pre IH]; intros t Hv Hi.
  - cbn [app before_invalid fst]. rewrite decide_False by done.
    cbn [foldl]. unfold turn at 2. cbn [fst snd].
    by rewrite loop_body_skip.
  - cbn [app before_invalid]. case_decide; [reflexivity|].
    cbn [foldl]. by apply IH.
Qed.

Lemma ProcessBedPE_summary_cons l bedpe :
  ProcessBedPE_summary (l :: bedpe) =
    if decide (l.1 = BED_INVALID) then None
    else Some (finalize (foldl turn totals_init (l :: before_invalid bedpe))).
Proof.
  destruct l as [status e]. unfold ProcessBedPE_summary.
  cbn [GetNextBedPE fst]. case_decide; [reflexivity|].
  by rewrite scan_foldl.
Qed.

End Lines.

(** X4: a header or blank line anywhere after the first line of the input
    changes nothing in what is printed. *)
Theorem later_header_lines_change_nothing
    (pre post : list line) (status : BedLineStatus) (e : BEDPE) :
  pre ≠ [] → status ≠ BED_VALID → status ≠ BED_INVALID →
  ProcessBedPE_summary (pre ++ (status, e) :: post)
  = ProcessBedPE_summary (pre ++ post).
Proof.
  intros Hpre Hv Hi. destruct pre as [|l pre]; [done|].
  cbn [app]. rewrite !ProcessBedPE_summary_cons.
  case_decide; [reflexivity|]. cbn [foldl].
  by rewrite foldl_turn_before_invalid_insert.
Qed.

Lemma later_header_lines_change_nothing_witness :
  ProcessBedPE_summary
    (take 2 Runs.headed ++ (BED_HEADER, Samples.same_chrom) :: drop 2 Runs.headed)
  = ProcessBedPE_summary (take 2 Runs.headed ++ drop 2 Runs.headed).
Proof.
  apply later_header_lines_change_nothing; vm_compute; discriminate.
Defined.

(** X5: nothing that follows the first [BED_INVALID] is taken into
    account: the input cut before it gives the same result. *)
Theorem input_after_invalid_is_ignored
    (pre post : list line) (e : BEDPE) :
  ProcessBedPE_summary (pre ++ (BED_INVALID, e) :: post)
  = ProcessBedPE_summary pre.
Proof.
  destruct pre as [|l pre]; [reflexivity|].
  cbn [app]. rewrite !ProcessBedPE_summary_cons.
  by rewrite before_invalid_app_invalid.
Qed.

(** ** The distance of a record *)

Section Distance.

Lemma distance_of_abs e :
  coordinate (start1 e) → coordinate (start2 e) →
  distance_of e = Z.abs (start2 e - start1 e).
Proof.
  unfold coordinate, distance_of, llabs, chrpos_sub, CHRPOS_MAX.
  intros H1 H2.
  assert (2 ^ 63 = 9223372036854775808) as E63 by reflexivity.
  rewrite (wrap_chrpos_small (start2 e - start1 e))
    by (unfold CHRPOS_MIN, CHRPOS_MAX; lia).
  apply wrap_chrpos_small. unfold CHRPOS_MIN, CHRPOS_MAX. lia.
Qed.

Lemma loop_body_distance_of t status e e' :
  chrom1 e' = chrom1 e → chrom2 e' = chrom2 e →
  strand1 e' = strand1 e → strand2 e' = strand2 e →
  distance_of e' = distance_of e →
  loop_body t status e' = loop_body t status e.
Proof.
  unfold distance_of, loop_body. by intros -> -> -> -> ->.
Qed.

End Distance.

(** X6: for coordinates that are not negative the distance of line 155 is
    [|start2 - start1|]; it is not negative, and exchanging the two starts
    of a record changes nothing in what the loop body does with it. *)
Theorem distance_is_symmetric (t : totals) (status : BedLineStatus) (e : BEDPE) :
  coordinate (start1 e) → coordinate (start2 e) →
  distance_of e = Z.abs (start2 e - start1 e) ∧
  0 ≤ distance_of e ∧
  loop_body t status (swap_starts e) = loop_body t status e.
Proof.
  intros H1 H2.
  pose proof (distance_of_abs e H1 H2) as D.
  split; [exact D|]. split; [rewrite D; lia|].
  apply loop_body_distance_of; try reflexivity.
  rewrite D, (distance_of_abs (swap_starts e)) by done.
  cbn [swap_starts start1 start2]. lia.
Qed.

Lemma distance_is_symmetric_witness :
  distance_of (Samples.split_chrom 300 "+" "-") = 300 ∧
  distance_of (swap_starts (Samples.split_chrom 300 "+" "-")) = 300.
Proof.
  assert (coordinate (start1 (Samples.split_chrom 300 "+" "-"))) as H1
    by (vm_compute; split; discriminate).
  assert (coordinate (start2 (Samples.split_chrom 300 "+" "-"))) as H2
    by (vm_compute; split; discriminate).
  split.
  - exact (proj1 (distance_is_symmetric totals_init BED_VALID
                    (Samples.split_chrom 300 "+" "-") H1 H2)).
  - reflexivity.
Defined.

(** ** The extremes of a vector *)

Section Extremes.

Lemma foldl_min_le (l : list Z) : ∀ a,
  foldl Z.min a l ≤ a ∧ ∀ y, y ∈ l → foldl Z.min a l ≤ y.
Proof.
  induction l as [|x l IH]; intros a.
  - split; [simpl; lia|]. intros y Hy. by apply elem_of_nil in Hy.
  - cbn [foldl]. destruct (IH (Z.min a x)) as [Ha Hl]. split; [lia|].
    intros y Hy. apply elem_of_cons in Hy as [->|Hy]; [lia|by apply Hl].
Qed.

Lemma foldl_max_ge (l : list Z) : ∀ a,
  a ≤ foldl Z.max a l ∧ ∀ y, y ∈ l → y ≤ foldl Z.max a l.
Proof.
  induction l as [|x l IH]; intros a.
  - split; [simpl; lia|]. intros y Hy. by apply elem_of_nil in Hy.
  - cbn [foldl]. destruct (IH (Z.max a x)) as [Ha Hl]. split; [lia|].
    intros y Hy. apply elem_of_cons in Hy as [->|Hy]; [lia|by apply Hl].
Qed.

Lemma foldl_min_elem (l : list Z) : ∀ a, foldl Z.min a l ∈ a :: l.
Proof.
  induction l as [|x l IH]; intros a; cbn [foldl].
  - apply list_elem_of_here.
  - specialize (IH (Z.min a x)).
    apply elem_of_cons in IH as [E|IH].
    + rewrite E. destruct (Z.min_spec a x) as [[_ ->]|[_ ->]].
      * apply list_elem_of_here.
      * apply list_elem_of_further, list_elem_of_here.
    + by do 2 apply list_elem_of_further.
Qed.

Lemma foldl_max_elem (l : list Z) : ∀ a, foldl Z.max a l ∈ a :: l.
Proof.
  induction l as [|x l IH]; intros a; cbn [foldl].
  - apply list_elem_of_here.
  - specialize (IH (Z.max a x)).
    apply elem_of_cons in IH as [E|IH].
    + rewrite E. destruct (Z.max_spec a x) as [[_ ->]|[_ ->]].
      * apply list_elem_of_further, list_elem_of_here.
      * apply list_elem_of_here.
    + by do 2 apply list_elem_of_further.
Qed.

Lemma min_element_le (l : list Z) y : y ∈ l → min_element l ≤ y.
Proof.
  destruct l as [|x l]; [intros H; by apply elem_of_nil in H|].
  cbn [min_element]. destruct (foldl_min_le l x) as [Ha Hl].
  intros Hy. apply elem_of_cons in Hy as [->|Hy]; [done|by apply Hl].
Qed.

Lemma max_element_ge (l : list Z) y : y ∈ l → y ≤ max_element l.
Proof.
  destruct l as [|x l]; [intros H; by apply elem_of_nil in H|].
  cbn [max_element]. destruct (foldl_max_ge l x) as [Ha Hl].
  intros Hy. apply elem_of_cons in Hy as [->|Hy]; [done|by apply Hl].
Qed.

Lemma min_element_elem (l : list Z) : l ≠ [] → min_element l ∈ l.
Proof. destruct l as [|x l]; [done|]. intros _. apply foldl_min_elem. Qed.

Lemma max_element_elem (l : list Z) : l ≠ [] → max_element l ∈ l.
Proof. destruct l as [|x l]; [done|]. intros _. apply foldl_max_elem. Qed.

Lemma min_element_perm (l l' : list Z) : l ≡ₚ l' → min_element l = min_element l'.
Proof.
  intros Hp. destruct (decide (l = [])) as [->|Hne].
  - by apply Permutation_nil_l in Hp as ->.
  - assert (l' ≠ []) as Hne'.
    { intros ->. by apply Permutation_nil_r in Hp. }
    assert (min_element l ∈ l') as H1 by (rewrite <- Hp; by apply min_element_elem).
    assert (min_element l' ∈ l) as H2 by (rewrite Hp; by apply min_element_elem).
    apply min_element_le in H1. apply min_element_le in H2. lia.
Qed.

Lemma max_element_perm (l l' : list Z) : l ≡ₚ l' → max_element l = max_element l'.
Proof.
  intros Hp. destruct (decide (l = [])) as [->|Hne].
  - by apply Permutation_nil_l in Hp as ->.
  - assert (l' ≠ []) as Hne'.
    { intros ->. by apply Permutation_nil_r in Hp. }
    assert (max_element l ∈ l') as H1 by (rewrite <- Hp; by apply max_element_elem).
    assert (max_element l' ∈ l) as H2 by (rewrite Hp; by apply max_element_elem).
    apply max_element_ge in H1. apply max_element_ge in H2. lia.
Qed.

End Extremes.

(** ** More on the median *)

Section MedianValue.

Lemma std_sort_elem (l : list Z) x : x ∈ std_sort l ↔ x ∈ l.
Proof. unfold std_sort. by rewrite merge_sort_Permutation. Qed.

Lemma std_sort_length (l : list Z) : length (std_sort l) = length l.
Proof. unfold std_sort. apply Permutation_length, merge_sort_Permutation. Qed.

Lemma nth_elem (s : list Z) i : (i < length s)%nat → nth i s 0 ∈ s.
Proof. intros Hi. apply list_elem_of_In, nth_In, Hi. Qed.

(** On a non-empty vector the function returns one of the values, or the
    halved sum of two of them. *)
Lemma calc_median_middle (l : list Z) :
  l ≠ [] → Z.of_nat (length l) < 2 ^ 64 →
  ∃ a b, a ∈ l ∧ b ∈ l ∧
    ((calc_median_chrposv l).2 = Defined a ∨
     (calc_median_chrposv l).2 = Defined (wrap_chrpos (chrpos_add a b ÷ 2))).
Proof.
  intros Hne Hsize. unfold calc_median_chrposv. cbn [snd].
  assert (0 < length (std_sort l))%nat as Hpos.
  { rewrite std_sort_length. destruct l; [done|simpl; lia]. }
  rewrite <- (std_sort_length l) in Hsize.
  assert (∀ x, x ∈ std_sort l → x ∈ l) as Hin by (intros x; apply std_sort_elem).
  revert Hpos Hsize Hin. generalize (std_sort l). intros s Hpos Hsize Hin.
  set (n := length s) in *.
  assert (Z.of_nat n `div` 2 = Z.of_nat (n / 2)) as Hdiv
    by (by rewrite (Nat2Z.inj_div n 2)).
  pose proof (Nat.div_mod_eq n 2) as Hdm.
  pose proof (Nat.mod_upper_bound n 2 ltac:(lia)) as Hub.
  assert (Z.of_nat n `mod` 2 = Z.of_nat (n mod 2)) as Hmod
    by (by rewrite (Nat2Z.inj_mod n 2)).
  rewrite Hdiv, Hmod. case_decide as Hodd.
  - exists (nth (n / 2) s 0), (nth (n / 2) s 0).
    assert (n / 2 < length s)%nat as Hi by (fold n; lia).
    split; [apply Hin, nth_elem, Hi|]. split; [apply Hin, nth_elem, Hi|].
    left. by apply vec_at_nth.
  - assert (size_sub (Z.of_nat (n / 2)) 1 = Z.of_nat (n / 2 - 1)) as ->.
    { unfold size_sub, wrap_unsigned. rewrite Z.mod_small; lia. }
    assert (n / 2 - 1 < length s)%nat as Hi1 by (fold n; lia).
    assert (n / 2 < length s)%nat as Hi2 by (fold n; lia).
    exists (nth (n / 2 - 1) s 0), (nth (n / 2) s 0).
    split; [apply Hin, nth_elem, Hi1|]. split; [apply Hin, nth_elem, Hi2|].
    right. rewrite (vec_at_nth s (n / 2 - 1) 0), (vec_at_nth s (n / 2) 0) by done.
    rewrite !bind_Defined. by rewrite chrpos_div_nonzero.
Qed.

End MedianValue.

(** X7: the median of a non-empty buffer lies between its smallest and its
    largest value (for values whose pairwise sums stay inside [CHRPOS]). *)
Theorem median_between_extremes (l : list Z) :
  l ≠ [] → Z.of_nat (length l) < 2 ^ 64 → Forall half_range l →
  ∃ m, (calc_median_chrposv l).2 = Defined m ∧
       min_element l ≤ m ≤ max_element l.
Proof.
  intros Hne Hsize Hall.
  destruct (calc_median_middle l Hne Hsize) as (a & b & Ha & Hb & [E|E]).
  - exists a. split; [exact E|].
    split; [by apply min_element_le|by apply max_element_ge].
  - eexists. split; [exact E|].
    pose proof (min_element_le l a Ha). pose proof (max_element_ge l a Ha).
    pose proof (min_element_le l b Hb). pose proof (max_element_ge l b Hb).
    rewrite Forall_forall in Hall.
    pose proof (Hall a Ha) as Ra. pose proof (Hall b Hb) as Rb.
    unfold half_range in Ra, Rb.
    assert (2 ^ 62 = 4611686018427387904) as E62 by reflexivity.
    unfold chrpos_add.
    rewrite (wrap_chrpos_small (a + b)) by (unfold CHRPOS_MIN, CHRPOS_MAX; lia).
    pose proof (Z.quot_rem' (a + b) 2) as Q.
    pose proof (Z.rem_bound_abs (a + b) 2 ltac:(lia)) as R.
    assert (0 ≤ a + b → 0 ≤ Z.rem (a + b) 2) as Rp
      by (intros; apply Z.rem_nonneg; lia).
    assert (a + b ≤ 0 → Z.rem (a + b) 2 ≤ 0) as Rn
      by (intros; apply Z.rem_nonpos; lia).
    rewrite wrap_chrpos_small by (unfold CHRPOS_MIN, CHRPOS_MAX; lia).
    lia.
Qed.

Lemma median_between_extremes_witness :
  ∃ m, (calc_median_chrposv [300; 100; 400; 200]).2 = Defined m ∧
       min_element [300; 100; 400; 200] ≤ m ≤ max_element [300; 100; 400; 200].
Proof.
  apply median_between_extremes.
  - discriminate.
  - reflexivity.
  - apply (bool_decide_unpack _). vm_compute. exact I.
Defined.

(** X8: the median has a defined value exactly when the buffer is not
    empty (for a buffer that a vector can hold). *)
Theorem median_defined_iff_nonempty (l : list Z) :
  Z.of_nat (length l) < 2 ^ 64 →
  (∃ m, (calc_median_chrposv l).2 = Defined m) ↔ l ≠ [].
Proof.
  intros Hsize. split.
  - intros [m Hm] ->. vm_compute in Hm. discriminate.
  - intros Hne.
    destruct (calc_median_middle l Hne Hsize) as (a & b & _ & _ & [E|E]);
      eauto.
Qed.

Lemma median_defined_iff_nonempty_witness :
  (∃ m, (calc_median_chrposv [7; 3]).2 = Defined m) ↔ [7; 3] ≠ [].
Proof.
  apply median_defined_iff_nonempty. reflexivity.
Defined.

(** ** More on the histogram *)

Section HistogramBins.

(** The index of a value when the spread is evenly binned. *)
Lemma bin_index_value mn mx nb bw value :
  0 < nb ≤ INT_MAX →
  0 ≤ mn → mn ≤ value → value ≤ mx → mx ≤ CHRPOS_MAX →
  bw = (mx - mn) `div` nb → bw ≠ 0 →
  (mx - mn) `mod` nb < bw →
  bin_index mn bw nb value = Defined (bin_of mn bw nb value) ∧
  0 ≤ bin_of mn bw nb value < nb.
Proof.
  intros Hnb Hmn Hlo Hhi Hmx Hbw Hnz Hrem.
  assert (2 ^ 63 = 9223372036854775808) as E63 by reflexivity.
  assert (2 ^ 31 = 2147483648) as E31 by reflexivity.
  unfold INT_MAX, CHRPOS_MAX in *.
  pose proof (Z.div_mod (mx - mn) nb ltac:(lia)) as Hdm.
  assert (0 < bw) as Hpos.
  { assert (0 ≤ bw) by (subst bw; apply Z.div_pos; lia). lia. }
  rewrite <- Hbw in Hdm. unfold bin_of.
  set (q := (value - mn) `div` bw).
  assert (0 ≤ q ≤ nb) as Hq.
  { subst q. split; [apply Z.div_pos; lia|].
    assert ((value - mn) `div` bw < nb + 1); [|lia].
    apply Z.div_lt_upper_bound; [lia|]. nia. }
  assert (q ≤ value - mn) as Hqv.
  { subst q. apply Z.div_le_upper_bound; [lia|]. nia. }
  split; [|lia].
  unfold bin_index, chrpos_div, chrpos_sub.
  rewrite decide_False by done.
  rewrite (wrap_chrpos_small (value - mn))
    by (unfold CHRPOS_MIN, CHRPOS_MAX; lia).
  rewrite Z.quot_div_nonneg by lia. fold q.
  rewrite wrap_chrpos_small by (unfold CHRPOS_MIN, CHRPOS_MAX; lia).
  rewrite bind_Defined.
  rewrite wrap_int_small by (unfold INT_MIN, INT_MAX; lia).
  case_decide as Hlast.
  - unfold int_decr.
    rewrite wrap_int_small by (unfold INT_MIN, INT_MAX; lia).
    unfold mret, outcome_ret. f_equal. lia.
  - unfold mret, outcome_ret. f_equal. lia.
Qed.

Lemma bump_in_range (bins : list Z) idx :
  0 ≤ idx < Z.of_nat (length bins) → Z.of_nat (length bins) ≤ 2 ^ 64 →
  ∃ c, bins !! Z.to_nat idx = Some c ∧
       bump bins idx = Defined (<[Z.to_nat idx := int_incr c]> bins).
Proof.
  intros Hidx Hlen. unfold bump, vec_at, wrap_unsigned.
  rewrite Z.mod_small by lia. rewrite decide_True by done.
  destruct (lookup_lt_is_Some_2 bins (Z.to_nat idx) ltac:(lia)) as [c Hc].
  exists c. rewrite Hc. split; [done|]. by rewrite bind_Defined.
Qed.

(** When every value has an index inside the bins, the loop over the data
    is defined and adds to each bin the number of values with its index. *)
Lemma fill_bins_counts mn bw nb (idx : Z → Z) data : ∀ bins,
  (∀ v, v ∈ data →
     bin_index mn bw nb v = Defined (idx v) ∧
     0 ≤ idx v < Z.of_nat (length bins)) →
  Z.of_nat (length bins) ≤ 2 ^ 64 →
  Forall (Z.le 0) bins →
  sum_bins bins + Z.of_nat (length data) ≤ INT_MAX →
  ∃ bins', fill_bins mn bw nb data bins = Defined bins' ∧
    ∀ i c, bins !! i = Some c →
      bins' !! i =
        Some (c + Z.of_nat (length (filter (λ v, Z.to_nat (idx v) = i) data))).
Proof.
  assert (INT_MIN ≤ 0) as Hmin by (vm_compute; discriminate).
  induction data as [|v data IH]; intros bins Hidx Hlen Hall Hmax.
  - exists bins. split; [reflexivity|]. intros i c Hc. rewrite Hc.
    f_equal. simpl. lia.
  - destruct (Hidx v (list_elem_of_here _ _)) as [Ev Rv].
    rewrite fill_bins_cons, Ev, bind_Defined.
    destruct (bump_in_range bins (idx v) Rv Hlen) as (c0 & Hc0 & Eb).
    rewrite Eb, bind_Defined. cbn [length] in Hmax.
    destruct (bump_sum _ _ _ Eb Hall ltac:(lia)) as (Hall1 & Hsum1 & Hlen1).
    pose proof (sum_bins_bound _ _ _ Hall Hc0) as Hc0b.
    destruct (IH (<[Z.to_nat (idx v) := int_incr c0]> bins)) as (bins' & Ef & Hb).
    + intros w Hw. rewrite Hlen1. apply Hidx. by apply list_elem_of_further.
    + by rewrite Hlen1.
    + exact Hall1.
    + lia.
    + exists bins'. split; [exact Ef|]. intros i c Hc.
      destruct (decide (Z.to_nat (idx v) = i)) as [<-|Hne].
      * rewrite Hc0 in Hc. injection Hc as <-.
        rewrite (Hb (Z.to_nat (idx v)) (int_incr c0)).
        -- rewrite filter_cons_True by done. cbn [length].
           rewrite int_incr_small by lia. f_equal. lia.
        -- apply list_lookup_insert_eq. by eapply lookup_lt_Some.
      * rewrite (Hb i c).
        -- by rewrite filter_cons_False.
        -- by rewrite list_lookup_insert_ne.
Qed.

End HistogramBins.

Section HistogramRegime.

Lemma filter_iff_in {A} (P Q : A → Prop) `{∀ x, Decision (P x)}
    `{∀ x, Decision (Q x)} (l : list A) :
  (∀ x, x ∈ l → P x ↔ Q x) → filter P l = filter Q l.
Proof.
  induction l as [|x l IH]; intros Hpq; [reflexivity|].
  assert (filter P l = filter Q l) as E.
  { apply IH. intros y Hy. apply Hpq. by apply list_elem_of_further. }
  pose proof (Hpq x (list_elem_of_here _ _)) as Hx.
  destruct (decide (P x)) as [Hp|Hp].
  - rewrite !filter_cons_True by tauto. by rewrite E.
  - rewrite !filter_cons_False by tauto. exact E.
Qed.

(** The whole constructor on data whose spread is evenly binned. *)
Lemma HistogramData_ctor_evenly data nb :
  data ≠ [] → Forall coordinate data →
  0 < nb ≤ INT_MAX → Z.of_nat (length data) ≤ INT_MAX →
  evenly_binned data nb →
  ∃ bins,
    HistogramData_ctor data nb =
      Defined (mkHistogramData nb (min_element data) (max_element data)
                 ((max_element data - min_element data) `div` nb) bins) ∧
    length bins = Z.to_nat nb ∧
    sum_bins bins = Z.of_nat (length data) ∧
    ∀ i, 0 ≤ i < nb →
      bins !! Z.to_nat i =
        Some (Z.of_nat (length (filter
          (λ v, bin_of (min_element data)
                       ((max_element data - min_element data) `div` nb) nb v = i)
          data))).
Proof.
  intros Hne Hall Hnb Hlen Heven. unfold evenly_binned in Heven.
  assert (2 ^ 63 = 9223372036854775808) as E63 by reflexivity.
  assert (2 ^ 31 = 2147483648) as E31 by reflexivity.
  assert (2 ^ 64 = 18446744073709551616) as E64 by reflexivity.
  rewrite Forall_forall in Hall.
  pose proof (Hall _ (min_element_elem data Hne)) as Cmn.
  pose proof (Hall _ (max_element_elem data Hne)) as Cmx.
  pose proof (min_element_le data _ (max_element_elem data Hne)) as Hmm.
  unfold coordinate, CHRPOS_MAX in Cmn, Cmx.
  set (mn := min_element data) in *. set (mx := max_element data) in *.
  set (bw := (mx - mn) `div` nb) in *.
  pose proof (Z.mod_pos_bound (mx - mn) nb ltac:(lia)) as Hmb.
  assert (0 < bw) as Hbw by lia.
  unfold HistogramData_ctor.
  rewrite decide_False by lia.
  rewrite (bool_decide_eq_false_2 (data = [])) by done.
  rewrite (bool_decide_eq_false_2 (nb ≤ 0)) by lia. cbn [orb].
  fold mn mx. unfold chrpos_sub.
  rewrite (wrap_chrpos_small (mx - mn)) by (unfold CHRPOS_MIN, CHRPOS_MAX; lia).
  rewrite chrpos_div_nonzero by lia.
  rewrite Z.quot_div_nonneg by lia. fold bw.
  assert (bw ≤ mx - mn) as Hbwle.
  { subst bw. apply Z.div_le_upper_bound; [lia|]. nia. }
  rewrite wrap_chrpos_small by (unfold CHRPOS_MIN, CHRPOS_MAX; lia).
  rewrite bind_Defined. rewrite decide_False by lia.
  destruct (fill_bins_counts mn bw nb (bin_of mn bw nb) data
              (replicate (Z.to_nat nb) 0)) as (bins & Ef & Hb).
  - intros v Hv. rewrite length_replicate, Z2Nat.id by lia.
    pose proof (min_element_le data v Hv) as Hlo.
    pose proof (max_element_ge data v Hv) as Hhi.
    apply (bin_index_value mn mx nb bw v); unfold INT_MAX, CHRPOS_MAX;
      try lia; done.
  - rewrite length_replicate. unfold INT_MAX in Hnb. lia.
  - apply Forall_replicate. lia.
  - rewrite sum_bins_replicate. lia.
  - exists bins. rewrite Ef, bind_Defined. split; [reflexivity|].
    apply fill_bins_sum in Ef as [Hsum Hl].
    + rewrite sum_bins_replicate, length_replicate in *.
      split; [done|]. split; [lia|].
      intros i Hi. rewrite (Hb (Z.to_nat i) 0).
      * f_equal. rewrite Z.add_0_l. do 2 f_equal.
        apply filter_iff_in. intros v Hv.
        pose proof (min_element_le data v Hv) as Hlo.
        pose proof (max_element_ge data v Hv) as Hhi.
        destruct (bin_index_value mn mx nb bw v) as [_ Hr];
          unfold INT_MAX, CHRPOS_MAX; try lia; done.
      * apply lookup_replicate_2. lia.
    + apply Forall_replicate. lia.
    + rewrite sum_bins_replicate. lia.
Qed.

End HistogramRegime.

Section HistogramOrder.

Lemma HistogramData_ctor_fields data nb h :
  HistogramData_ctor data nb = Defined h → data ≠ [] → 0 < nb →
  n_bins h = nb ∧ min_val h = min_element data ∧
  max_val h = max_element data ∧
  chrpos_div (chrpos_sub (max_element data) (min_element data)) nb
    = Defined (bin_width h).
Proof.
  unfold HistogramData_ctor. intros Hh Hne Hnb.
  rewrite decide_False in Hh by lia.
  rewrite (bool_decide_eq_false_2 (data = [])) in Hh by done.
  rewrite (bool_decide_eq_false_2 (nb ≤ 0)) in Hh by lia. cbn [orb] in Hh.
  destruct (chrpos_div _ nb) as [bw|]; [|done].
  rewrite bind_Defined in Hh. case_decide.
  - injection Hh as <-. simpl. by subst bw.
  - destruct (fill_bins _ bw nb data _) as [bins|]; [|done].
    rewrite bind_Defined in Hh. by injection Hh as <-.
Qed.

Lemma bump_length bins idx bins' :
  bump bins idx = Defined bins' → length bins' = length bins.
Proof.
  unfold bump. destruct (vec_at bins _) as [c|]; [|done].
  rewrite bind_Defined. intros [= <-]. apply length_insert.
Qed.

Lemma bump_undefined bins idx bins1 :
  length bins1 = length bins →
  bump bins idx = Undefined IndexOutOfRange →
  bump bins1 idx = Undefined IndexOutOfRange.
Proof.
  unfold bump, vec_at. intros Hl. rewrite Hl.
  case_decide as Hr; [|done].
  destruct (lookup_lt_is_Some_2 bins (Z.to_nat (wrap_unsigned 64 idx))
              ltac:(lia)) as [c ->].
  by rewrite bind_Defined.
Qed.

(** Two increments can be exchanged. *)
Lemma bump_exchange bins i j :
  (bump bins i ≫= λ b, bump b j) = (bump bins j ≫= λ b, bump b i).
Proof.
  destruct (bump bins i) as [bi|fi] eqn:Ei, (bump bins j) as [bj|fj] eqn:Ej.
  - rewrite !bind_Defined. revert Ei Ej. unfold bump, vec_at.
    set (ki := wrap_unsigned 64 i). set (kj := wrap_unsigned 64 j).
    case_decide as Ri; [|done]. case_decide as Rj; [|done].
    destruct (bins !! Z.to_nat ki) as [ci|] eqn:Hi; [|done].
    destruct (bins !! Z.to_nat kj) as [cj|] eqn:Hj; [|done].
    rewrite !bind_Defined. intros [= <-] [= <-].
    rewrite !length_insert, !decide_True by done.
    destruct (decide (Z.to_nat ki = Z.to_nat kj)) as [E|N].
    + rewrite E in *. rewrite Hi in Hj. injection Hj as ->.
      reflexivity.
    + rewrite list_lookup_insert_ne by done.
      rewrite (list_lookup_insert_ne bins (Z.to_nat kj)) by done.
      rewrite Hi, Hj, !bind_Defined.
      unfold mret, outcome_ret. f_equal. by apply list_insert_insert_ne.
  - rewrite bind_Defined. apply bump_fault in Ej as Hf. subst fj.
    cbn [mbind outcome_bind].
    eapply bump_undefined; [|exact Ej]. by eapply bump_length.
  - rewrite bind_Defined. apply bump_fault in Ei as Hf. subst fi.
    cbn [mbind outcome_bind]. symmetry.
    eapply bump_undefined; [|exact Ei]. by eapply bump_length.
  - apply bump_fault in Ei as ->. apply bump_fault in Ej as ->. reflexivity.
Qed.

(** The loop over the data does not depend on the order of the data. *)
Lemma fill_bins_perm mn bw nb data data' :
  bw ≠ 0 → data ≡ₚ data' →
  ∀ bins, fill_bins mn bw nb data bins = fill_bins mn bw nb data' bins.
Proof.
  intros Hbw Hp.
  induction Hp as [|v l l' _ IH|v w l|l1 l2 l3 _ IH1 _ IH2]; intros bins.
  - reflexivity.
  - rewrite !fill_bins_cons.
    destruct (bin_index mn bw nb v) as [i|]; [|reflexivity].
    rewrite !bind_Defined. destruct (bump bins i) as [b|]; [|reflexivity].
    rewrite !bind_Defined. apply IH.
  - rewrite !fill_bins_cons. unfold bin_index.
    rewrite !chrpos_div_nonzero by done. rewrite !bind_Defined.
    set (i := if decide (wrap_int (wrap_chrpos (chrpos_sub v mn ÷ bw)) = nb)
              then _ else _).
    set (j := if decide (wrap_int (wrap_chrpos (chrpos_sub w mn ÷ bw)) = nb)
              then _ else _).
    pose proof (bump_exchange bins j i) as Ex.
    destruct (bump bins j) as [bj|fj], (bump bins i) as [bi|fi];
      rewrite ?bind_Defined in *; cbn [mbind outcome_bind] in *.
    + rewrite !fill_bins_cons. unfold bin_index.
      rewrite !chrpos_div_nonzero by done. rewrite !bind_Defined.
      fold i j. destruct (bump bj i) as [bji|], (bump bi j) as [bij|];
        rewrite ?bind_Defined; cbn [mbind outcome_bind]; congruence.
    + rewrite !fill_bins_cons. unfold bin_index.
      rewrite !chrpos_div_nonzero by done. rewrite !bind_Defined.
      fold i. rewrite Ex. reflexivity.
    + rewrite !fill_bins_cons. unfold bin_index.
      rewrite !chrpos_div_nonzero by done. rewrite !bind_Defined.
      fold j. rewrite <- Ex. reflexivity.
    + congruence.
  - by rewrite IH1.
Qed.

(** The constructor does not depend on the order of the data. *)
Lemma HistogramData_ctor_perm data data' nb :
  data ≡ₚ data' → HistogramData_ctor data nb = HistogramData_ctor data' nb.
Proof.
  intros Hp. unfold HistogramData_ctor. case_decide; [reflexivity|].
  assert (bool_decide (data = []) = bool_decide (data' = [])) as ->.
  { apply bool_decide_ext. split; intros ->.
    - by apply Permutation_nil_l in Hp.
    - by apply Permutation_nil_r in Hp. }
  destruct (bool_decide (data' = []) || bool_decide (nb ≤ 0)); [reflexivity|].
  rewrite (min_element_perm _ _ Hp), (max_element_perm _ _ Hp).
  destruct (chrpos_div _ nb) as [bw|]; [|reflexivity].
  rewrite !bind_Defined. case_decide; [reflexivity|].
  by rewrite (fill_bins_perm _ _ _ _ _ ltac:(done) Hp).
Qed.

End HistogramOrder.

(** X9: the [min_val] and [max_val] of a histogram of non-empty data are
    values of the data, and every value lies between them. *)
Theorem histogram_extremes (data : list Z) (num_bins : Z) (h : HistogramData) :
  HistogramData_ctor data num_bins = Defined h → data ≠ [] → 0 < num_bins →
  min_val h ∈ data ∧ max_val h ∈ data ∧
  ∀ v, v ∈ data → min_val h ≤ v ≤ max_val h.
Proof.
  intros Hh Hne Hnb.
  destruct (HistogramData_ctor_fields data num_bins h Hh Hne Hnb)
    as (_ & -> & -> & _).
  split; [by apply min_element_elem|]. split; [by apply max_element_elem|].
  intros v Hv. split; [by apply min_element_le|by apply max_element_ge].
Qed.

Lemma histogram_extremes_witness :
  200 ∈ [300; 200; 1700; 900] ∧ 1700 ∈ [300; 200; 1700; 900] ∧
  ∀ v, v ∈ [300; 200; 1700; 900] → 200 ≤ v ≤ 1700.
Proof.
  refine (histogram_extremes [300; 200; 1700; 900] 10
            (mkHistogramData 10 200 1700 150 [2; 0; 0; 0; 1; 0; 0; 0; 0; 1])
            _ _ _).
  - vm_compute. reflexivity.
  - discriminate.
  - reflexivity.
Defined.

(** X10: data whose spread is smaller than the number of bins, and so all
    data made of one repeated value, get a bin width of 0 and a histogram
    with every bin at 0. *)
Theorem narrow_data_gives_empty_histogram (data : list Z) (num_bins : Z) :
  data ≠ [] → Forall coordinate data → 0 < num_bins →
  max_element data - min_element data < num_bins →
  HistogramData_ctor data num_bins =
    Defined (mkHistogramData num_bins (min_element data) (max_element data) 0
               (replicate (Z.to_nat num_bins) 0)).
Proof.
  intros Hne Hall Hnb Hnarrow.
  assert (2 ^ 63 = 9223372036854775808) as E63 by reflexivity.
  rewrite Forall_forall in Hall.
  pose proof (Hall _ (min_element_elem data Hne)) as Cmn.
  pose proof (Hall _ (max_element_elem data Hne)) as Cmx.
  pose proof (min_element_le data _ (max_element_elem data Hne)) as Hmm.
  unfold coordinate, CHRPOS_MAX in Cmn, Cmx.
  unfold HistogramData_ctor.
  rewrite decide_False by lia.
  rewrite (bool_decide_eq_false_2 (data = [])) by done.
  rewrite (bool_decide_eq_false_2 (num_bins ≤ 0)) by lia. cbn [orb].
  unfold chrpos_sub.
  rewrite (wrap_chrpos_small (_ - _)) by (unfold CHRPOS_MIN, CHRPOS_MAX; lia).
  rewrite chrpos_div_nonzero by lia.
  rewrite Z.quot_small by lia. rewrite wrap_chrpos_zero, bind_Defined.
  by rewrite decide_True.
Qed.

Lemma narrow_data_gives_empty_histogram_witness :
  HistogramData_ctor [400; 400; 407] 10 =
    Defined (mkHistogramData 10 400 407 0 (replicate 10 0)).
Proof.
  refine (narrow_data_gives_empty_histogram [400; 400; 407] 10 _ _ _ _).
  - discriminate.
  - apply (bool_decide_unpack _). vm_compute. exact I.
  - reflexivity.
  - reflexivity.
Defined.

(** X11: on data whose spread is evenly binned (the truncation of the bin
    width loses less than one bin width; a spread of at least the square
    of the number of bins is enough) the histogram is defined, with the
    truncated quotient as bin width and bin counts that add up to the
    number of values. *)
Theorem evenly_binned_histogram_is_defined (data : list Z) (num_bins : Z) :
  data ≠ [] → Forall coordinate data →
  0 < num_bins ≤ INT_MAX → Z.of_nat (length data) ≤ INT_MAX →
  evenly_binned data num_bins →
  ∃ h, HistogramData_ctor data num_bins = Defined h ∧
       bin_width h = (max_element data - min_element data) `div` num_bins ∧
       sum_bins (bin_data h) = Z.of_nat (length data).
Proof.
  intros Hne Hall Hnb Hlen Heven.
  destruct (HistogramData_ctor_evenly data num_bins Hne Hall Hnb Hlen Heven)
    as (bins & E & _ & Hsum & _).
  eexists. split; [exact E|]. split; [reflexivity|exact Hsum].
Qed.

Lemma evenly_binned_histogram_is_defined_witness :
  ∃ h, HistogramData_ctor [300; 200; 1700; 900] 10 = Defined h ∧
       bin_width h = 150 ∧ sum_bins (bin_data h) = 4.
Proof.
  refine (evenly_binned_histogram_is_defined [300; 200; 1700; 900] 10 _ _ _ _ _).
  - discriminate.
  - apply (bool_decide_unpack _). vm_compute. exact I.
  - split; [reflexivity|discriminate].
  - discriminate.
  - reflexivity.
Defined.

(** X12: on data whose spread is evenly binned, bin [i] of the histogram
    holds the number of values [v] with [(v - min_val) / bin_width = i],
    the last bin also taking the values that reach [max_val]. *)
Theorem histogram_bins_count_values (data : list Z) (num_bins i : Z) :
  data ≠ [] → Forall coordinate data →
  0 < num_bins ≤ INT_MAX → Z.of_nat (length data) ≤ INT_MAX →
  evenly_binned data num_bins →
  0 ≤ i < num_bins →
  ∃ h, HistogramData_ctor data num_bins = Defined h ∧
       bin_data h !! Z.to_nat i =
         Some (Z.of_nat (length (filter
           (λ v, bin_of (min_val h) (bin_width h) num_bins v = i) data))).
Proof.
  intros Hne Hall Hnb Hlen Heven Hi.
  destruct (HistogramData_ctor_evenly data num_bins Hne Hall Hnb Hlen Heven)
    as (bins & E & _ & _ & Hb).
  eexists. split; [exact E|]. cbn [bin_data min_val bin_width]. by apply Hb.
Qed.

Lemma histogram_bins_count_values_witness :
  ∃ h, HistogramData_ctor [300; 200; 1700; 900] 10 = Defined h ∧
       bin_data h !! Z.to_nat 9 =
         Some (Z.of_nat (length (filter
           (λ v, bin_of (min_val h) (bin_width h) 10 v = 9)
           [300; 200; 1700; 900]))).
Proof.
  refine (histogram_bins_count_values [300; 200; 1700; 900] 10 9 _ _ _ _ _ _).
  - discriminate.
  - apply (bool_decide_unpack _). vm_compute. exact I.
  - split; [reflexivity|discriminate].
  - discriminate.
  - reflexivity.
  - split; [discriminate|reflexivity].
Defined.

(** X13: the histogram does not depend on the order of the data it is
    built from. *)
Theorem histogram_order_independent (data data' : list Z) (num_bins : Z) :
  data ≡ₚ data' →
  HistogramData_ctor data num_bins = HistogramData_ctor data' num_bins.
Proof. apply HistogramData_ctor_perm. Qed.

Lemma histogram_order_independent_witness :
  HistogramData_ctor [300; 200; 1700; 900] 10
  = HistogramData_ctor [200; 300; 900; 1700] 10.
Proof.
  apply histogram_order_independent.
  apply (bool_decide_unpack _). vm_compute. exact I.
Defined.

(** X14: the histogram that is printed is the histogram of the distances
    as the loop buffered them: that [calc_median_chrposv] has sorted the
    buffer in between makes no difference. *)
Theorem printed_histogram_is_that_of_accum (t : totals) :
  r_hist (finalize t) = HistogramData_ctor (accum t) 10.
Proof.
  unfold finalize, calc_median_chrposv. cbn [r_hist].
  apply HistogramData_ctor_perm. unfold std_sort.
  apply merge_sort_Permutation.
Qed.

(** X15: wherever the constructor has a defined result there are exactly
    [num_bins] bins, and they add up to the number of values, or to 0
    when the bin width is 0 (for data whose size an [int] can hold). *)
Theorem defined_histogram_accounts_for_all (data : list Z) (num_bins : Z)
    (h : HistogramData) :
  HistogramData_ctor data num_bins = Defined h →
  Z.of_nat (length data) ≤ INT_MAX →
  length (bin_data h) = Z.to_nat num_bins ∧
  sum_bins (bin_data h) =
    if decide (bin_width h = 0) then 0 else Z.of_nat (length data).
Proof. apply HistogramData_ctor_sum. Qed.

Lemma defined_histogram_accounts_for_all_witness :
  length [2; 0; 0; 0; 1; 0; 0; 0; 0; 1] = Z.to_nat 10 ∧
  sum_bins [2; 0; 0; 0; 1; 0; 0; 0; 0; 1] = 4.
Proof.
  refine (defined_histogram_accounts_for_all [300; 200; 1700; 900] 10
            (mkHistogramData 10 200 1700 150 [2; 0; 0; 0; 1; 0; 0; 0; 0; 1])
            _ _).
  - vm_compute. reflexivity.
  - vm_compute. discriminate.
Defined.

(** ** More on the report *)

Section Report.

Lemma finalize_mean t :
  r_mean_len (finalize t) = mean_len (total_distance t) (n_intrachrom t).
Proof. unfold finalize. by destruct (calc_median_chrposv (accum t)). Qed.

Lemma finalize_median t :
  r_median_len (finalize t) = (calc_median_chrposv (accum t)).2.
Proof. unfold finalize. by destruct (calc_median_chrposv (accum t)). Qed.

Lemma mean_len_fault total n f :
  mean_len total n = Undefined f → f = FloatToInteger.
Proof.
  unfold mean_len, chrpos_div. case_decide.
  - rewrite decide_False by done.
    cbn [fmap outcome_fmap mbind outcome_bind double_of_chrpos chrpos_of_double].
    case_decide; congruence.
  - cbn. congruence.
Qed.

Lemma calc_median_fault accum f :
  (calc_median_chrposv accum).2 = Undefined f → f = IndexOutOfRange.
Proof.
  unfold calc_median_chrposv. cbn [snd].
  generalize (std_sort accum). intros s.
  generalize (Z.of_nat (length s)). intros n.
  case_decide.
  - apply vec_at_fault.
  - destruct (vec_at s (size_sub _ 1)) as [a|fa] eqn:Ea.
    + destruct (vec_at s (n `div` 2)) as [b|fb] eqn:Eb.
      * rewrite !bind_Defined. by rewrite chrpos_div_nonzero.
      * rewrite bind_Defined. cbn [mbind outcome_bind]. intros [= <-].
        by apply vec_at_fault in Eb.
    + cbn [mbind outcome_bind]. intros [= <-]. by apply vec_at_fault in Ea.
Qed.

Lemma fill_bins_fault mn bw nb data : ∀ bins f,
  bw ≠ 0 → fill_bins mn bw nb data bins = Undefined f → f = IndexOutOfRange.
Proof.
  induction data as [|value data IH]; intros bins f Hbw; [done|].
  rewrite fill_bins_cons. unfold bin_index. rewrite chrpos_div_nonzero by done.
  rewrite !bind_Defined.
  destruct (bump bins _) as [bins'|fb] eqn:Eb.
  - rewrite bind_Defined. by apply IH.
  - cbn [mbind outcome_bind]. intros [= <-]. by apply bump_fault in Eb.
Qed.

Lemma HistogramData_ctor_fault data num_bins f :
  0 ≤ num_bins →
  HistogramData_ctor data num_bins = Undefined f → f = IndexOutOfRange.
Proof.
  intros Hnb. unfold HistogramData_ctor. rewrite decide_False by lia.
  destruct (bool_decide (data = [])); [done|].
  cbn [orb]. case_bool_decide; [done|].
  rewrite chrpos_div_nonzero by lia. rewrite bind_Defined.
  case_decide; [done|].
  destruct (fill_bins _ _ _ _ _) as [bins|fb] eqn:Ef.
  - by rewrite bind_Defined.
  - cbn [mbind outcome_bind]. intros [= <-].
    by apply fill_bins_fault in Ef.
Qed.

Lemma measured_count_is_length recs :
  count_recs measured_rec recs
  = Z.of_nat (length (distance_of <$> filter measured_rec recs)).
Proof. unfold count_recs. by rewrite length_fmap. Qed.

End Report.

(** X16: when the loop has buffered at least one distance, the mean that
    is printed is the sum of the buffered distances divided by their
    number, truncated (for runs whose number of valid records an [int]
    can hold, a sum inside [CHRPOS] and a quotient of at most 53 bits,
    which the passage through [double] keeps exact). *)
Theorem printed_mean_is_truncated_average (first : line) (bedpe : list line) :
  Z.of_nat (length (run_records first bedpe)) ≤ INT_MAX →
  accum (scan totals_init first.1 first.2 bedpe) ≠ [] →
  CHRPOS_MIN ≤ sum_chrpos (accum (scan totals_init first.1 first.2 bedpe))
    ≤ CHRPOS_MAX →
  Z.abs (sum_chrpos (accum (scan totals_init first.1 first.2 bedpe))
         ÷ Z.of_nat (length (accum (scan totals_init first.1 first.2 bedpe))))
    < 2 ^ 53 →
  r_mean_len (finalize (scan totals_init first.1 first.2 bedpe)) =
    Defined (sum_chrpos (accum (scan totals_init first.1 first.2 bedpe))
             ÷ Z.of_nat (length (accum (scan totals_init first.1 first.2 bedpe)))).
Proof.
  intros Hmax. rewrite finalize_mean.
  assert (total_distance (scan totals_init first.1 first.2 bedpe)
          = wrap_chrpos (sum_chrpos
              (accum (scan totals_init first.1 first.2 bedpe)))) as Htot.
  { rewrite scan_foldl. by apply foldl_turn_total_is_sum. }
  assert (n_intrachrom (scan totals_init first.1 first.2 bedpe)
          = Z.of_nat (length
              (accum (scan totals_init first.1 first.2 bedpe)))) as Hn.
  { unfold run_records in Hmax. destruct first as [status e].
    rewrite scan_foldl. cbn [fst snd]. rewrite foldl_turn_valid_only.
    rewrite (foldl_turn_counts _ totals_init 0);
      [|simpl; lia..|rewrite Z.add_0_l; exact Hmax].
    cbn [n_intrachrom accum totals_init app]. rewrite Z.add_0_l.
    apply measured_count_is_length. }
  rewrite Htot, Hn.
  generalize (accum (scan totals_init first.1 first.2 bedpe)).
  intros ds Hne Hsum Hq.
  rewrite wrap_chrpos_small by done.
  apply mean_len_nonzero; [|done].
  destruct ds; [done|]. simpl. lia.
Qed.

Lemma printed_mean_is_truncated_average_witness :
  r_mean_len (finalize (scan totals_init BED_HEADER stale_entry Runs.headed))
  = Defined 200.
Proof.
  refine (printed_mean_is_truncated_average Runs.header_line Runs.headed
            _ _ _ _).
  - vm_compute. discriminate.
  - vm_compute. discriminate.
  - vm_compute. split; discriminate.
  - vm_compute. reflexivity.
Defined.


(** ** The command line *)

Section CommandLine.

Lemma strncmp_eq_unfold s1 s2 n :
  strncmp_eq s1 s2 n =
    if decide (n = 0%N) then true
    else
      match s1, s2 with
      | EmptyString, EmptyString => true
      | String c1 s1', String c2 s2' =>
          if decide (c1 = c2) then strncmp_eq s1' s2' (N.pred n) else false
      | _, _ => false
      end.
Proof. by destruct s1. Qed.

Lemma strncmp_eq_prefix arg : ∀ param k,
  String.length arg = k →
  strncmp_eq arg param (N.of_nat k) = true ↔ arg = String.substring 0 k param.
Proof.
  induction arg as [|c arg IH]; intros param k Hk; simpl in Hk; subst k.
  - rewrite strncmp_eq_unfold, decide_True by done. by destruct param.
  - rewrite strncmp_eq_unfold. rewrite decide_False by lia.
    destruct param as [|c' param]; [split; discriminate|].
    rewrite Nat2N.inj_succ, N.pred_succ. cbn [String.length String.substring].
    case_decide as Hc.
    + subst c'. rewrite (IH param (String.length arg) eq_refl).
      split; [by intros <-|by intros [= <-]].
    + split; [discriminate|]. intros [= E _]. done.
Qed.

Lemma parameterLength_short arg :
  short_arg arg → parameterLength arg = Z.of_nat (String.length arg).
Proof.
  unfold short_arg, parameterLength. intros H. apply wrap_int_small.
  assert (INT_MIN ≤ 0) by (vm_compute; discriminate). lia.
Qed.

(** The macro accepts an argument exactly when it is the first [paramLen]
    characters of [param]. *)
Lemma PARAMETER_CHECK_spec arg param paramLen :
  short_arg arg → 0 ≤ paramLen ≤ INT_MAX →
  (Z.to_nat paramLen ≤ String.length param)%nat →
  PARAMETER_CHECK arg param paramLen (parameterLength arg) = true
  ↔ arg = String.substring 0 (Z.to_nat paramLen) param.
Proof.
  intros Hs Hp Hlen. rewrite parameterLength_short by done.
  unfold PARAMETER_CHECK. rewrite andb_true_iff, bool_decide_eq_true.
  assert (2 ^ 31 = 2147483648) as E31 by reflexivity.
  assert (2 ^ 64 = 18446744073709551616) as E64 by reflexivity.
  unfold INT_MAX in Hp.
  split.
  - intros [Hcmp Heq]. rewrite Heq, Z.min_id in Hcmp.
    unfold wrap_unsigned in Hcmp. rewrite Z.mod_small in Hcmp by lia.
    rewrite <- Heq, <- nat_N_Z, N2Z.id in Hcmp.
    apply strncmp_eq_prefix in Hcmp; [|done].
    by rewrite <- Heq, Nat2Z.id.
  - intros Harg.
    assert (String.length arg = Z.to_nat paramLen) as Hl.
    { rewrite Harg. clear -Hlen. revert Hlen.
      generalize (Z.to_nat paramLen). intros k. revert k.
      induction param as [|c param IH]; intros [|k] Hk; simpl in *;
        try done; try lia.
      f_equal. apply IH. lia. }
    assert (Z.of_nat (String.length arg) = paramLen) as Heq by lia.
    split; [|done]. rewrite Heq, Z.min_id.
    unfold wrap_unsigned. rewrite Z.mod_small by lia.
    rewrite <- Heq, <- nat_N_Z, N2Z.id.
    apply strncmp_eq_prefix; [done|]. by rewrite Hl at 1.
Qed.

Lemma help_flag_spec arg :
  short_arg arg → help_flag arg = true ↔ arg = "-h" ∨ arg = "--hel".
Proof.
  intros Hs. unfold help_flag. rewrite orb_true_iff.
  rewrite (PARAMETER_CHECK_spec arg "-h" 2),
          (PARAMETER_CHECK_spec arg "--help" 5);
    try done; try (vm_compute; split; discriminate); try (simpl; lia).
Qed.

Lemma input_flag_spec arg :
  short_arg arg →
  PARAMETER_CHECK arg "-i" 2 (parameterLength arg) = true ↔ arg = "-i".
Proof.
  intros Hs. rewrite (PARAMETER_CHECK_spec arg "-i" 2);
    try done; try (vm_compute; split; discriminate); try (simpl; lia).
Qed.

End CommandLine.

Section Parsing.

Lemma scan_for_help_foldl args : ∀ b,
  foldl (λ (showHelp : bool) arg, if help_flag arg then true else showHelp)
        b args = true
  ↔ b = true ∨ ∃ a, a ∈ args ∧ help_flag a = true.
Proof.
  induction args as [|arg args IH]; intros b; cbn [foldl].
  - split; [by left|]. intros [H|(a & Ha & _)]; [done|].
    by apply elem_of_nil in Ha.
  - rewrite IH. split.
    + intros [H|(a & Ha & Hf)].
      * destruct (help_flag arg) eqn:E; [|by left].
        right. exists arg. split; [apply list_elem_of_here|done].
      * right. exists a. split; [by apply list_elem_of_further|done].
    + intros [->|(a & Ha & Hf)].
      * left. by destruct (help_flag arg).
      * apply elem_of_cons in Ha as [->|Ha].
        -- left. by rewrite Hf.
        -- right. by exists a.
Qed.

Lemma scan_for_help_spec args :
  scan_for_help args = true ↔ ∃ a, a ∈ args ∧ help_flag a = true.
Proof.
  unfold scan_for_help. rewrite scan_for_help_foldl.
  split; [intros [H|H]; [done|exact H]|by right].
Qed.

Lemma scan_for_help_none args :
  Forall short_arg args →
  Forall (λ a, a ≠ "-h" ∧ a ≠ "--hel") args →
  scan_for_help args = false.
Proof.
  intros Hs Hn. apply not_true_is_false. rewrite scan_for_help_spec.
  intros (a & Ha & Hf). rewrite Forall_forall in Hs, Hn.
  apply help_flag_spec in Hf; [|by apply Hs].
  destruct (Hn a Ha). tauto.
Qed.

Lemma input_options_cons file files dangling :
  input_options (file :: files) dangling
  = "-i" :: file :: input_options files dangling.
Proof. reflexivity. Qed.

Lemma last_cons_default {A} (d x : A) l :
  default d (last (x :: l)) = default x (last l).
Proof.
  revert d x. induction l as [|y l IH]; intros d x; [reflexivity|].
  change (last (x :: y :: l)) with (last (y :: l)).
  by rewrite !(IH _ y).
Qed.

(** The second loop on a run of [-i file] pairs, followed by anything. *)
Lemma parse_input_options_app files more : ∀ c,
  parse_parameters (input_options files false ++ more) c =
    parse_parameters more
      (mkCli (default (bedpeFileA c) (last files)) (showHelp c)
             (unrecognized c)).
Proof.
  induction files as [|file files IH]; intros c.
  - unfold input_options. cbn. by destruct c.
  - rewrite input_options_cons. cbn [app parse_parameters].
    replace (PARAMETER_CHECK "-i" "-i" 2 (parameterLength "-i")) with true
      by (vm_compute; reflexivity).
    rewrite IH. cbn [bedpeFileA showHelp unrecognized].
    by rewrite last_cons_default.
Qed.

Lemma parse_input_options files dangling c :
  parse_parameters (input_options files dangling) c =
    mkCli (default (bedpeFileA c) (last files)) (showHelp c) (unrecognized c).
Proof.
  assert (input_options files dangling
          = input_options files false ++ (if dangling then ["-i"] else []))
    as -> by (unfold input_options; by rewrite app_nil_r).
  rewrite parse_input_options_app. destruct dangling; [|reflexivity].
  cbn [parse_parameters].
  by replace (PARAMETER_CHECK "-i" "-i" 2 (parameterLength "-i")) with true
    by (vm_compute; reflexivity).
Qed.

(** Once the help flag is set it stays set, and what was reported stays
    reported. *)
Lemma parse_parameters_keeps args : ∀ c,
  (showHelp c = true → showHelp (parse_parameters args c) = true) ∧
  ∃ more, unrecognized (parse_parameters args c) = unrecognized c ++ more.
Proof.
  remember (length args) as n eqn:Hn. revert args Hn.
  induction n as [n IH] using lt_wf_ind. intros args Hn c.
  destruct args as [|arg rest]; cbn [parse_parameters].
  - split; [done|]. exists []. by rewrite app_nil_r.
  - simpl in Hn. destruct (PARAMETER_CHECK arg "-i" 2 (parameterLength arg)).
    + destruct rest as [|file rest'].
      * split; [done|]. exists []. by rewrite app_nil_r.
      * simpl in Hn.
        destruct (IH (length rest') ltac:(lia) rest' eq_refl
                    (mkCli file (showHelp c) (unrecognized c))) as [H1 H2].
        split; [exact H1|exact H2].
    + destruct (IH (length rest) ltac:(lia) rest eq_refl
                  (mkCli (bedpeFileA c) true (unrecognized c ++ [arg])))
        as [H1 [more H2]].
      split; [intros _; by apply H1|].
      exists (arg :: more). rewrite H2. cbn [unrecognized].
      by rewrite <- app_assoc.
Qed.

(** The help flag stays down only on a run of [-i file] pairs. *)
Lemma parse_parameters_shape args : ∀ c,
  Forall short_arg args →
  showHelp (parse_parameters args c) = false →
  ∃ files dangling,
    args = input_options files dangling ∧
    bedpeFileA (parse_parameters args c)
      = default (bedpeFileA c) (last files).
Proof.
  remember (length args) as n eqn:Hn. revert args Hn.
  induction n as [n IH] using lt_wf_ind. intros args Hn c Hs Hf.
  destruct args as [|arg rest].
  - exists [], false. split; reflexivity.
  - simpl in Hn. apply Forall_cons in Hs as [Ha Hs].
    cbn [parse_parameters] in *.
    destruct (PARAMETER_CHECK arg "-i" 2 (parameterLength arg)) eqn:Ei.
    + apply input_flag_spec in Ei as ->; [|done].
      destruct rest as [|file rest'].
      * exists [], true. split; reflexivity.
      * simpl in Hn. apply Forall_cons in Hs as [_ Hs].
        destruct (IH (length rest') ltac:(lia) rest' eq_refl _ Hs Hf)
          as (files & dangling & -> & E).
        exists (file :: files), dangling.
        split; [by rewrite input_options_cons|].
        rewrite E. cbn [bedpeFileA]. by rewrite last_cons_default.
    + destruct (parse_parameters_keeps rest
                  (mkCli (bedpeFileA c) true (unrecognized c ++ [arg])))
        as [Hk _].
      rewrite Hk in Hf by reflexivity. discriminate.
Qed.

End Parsing.

(** X18: of all arguments shorter than 2^31 characters the help test of
    lines 45 and 46 accepts "-h" and the five characters "--hel" and
    nothing else (so not "--help", which has six), and the test of line
    58 accepts "-i" only. *)
Theorem flags_accepted (arg : string) :
  short_arg arg →
  (help_flag arg = true ↔ arg = "-h" ∨ arg = "--hel") ∧
  (PARAMETER_CHECK arg "-i" 2 (parameterLength arg) = true ↔ arg = "-i").
Proof.
  intros Hs. split; [by apply help_flag_spec|by apply input_flag_spec].
Qed.

Lemma flags_accepted_witness :
  help_flag "--help" = true ↔ "--help" = "-h" ∨ "--help" = "--hel".
Proof.
  refine (proj1 (flags_accepted "--help" _)).
  vm_compute. discriminate.
Defined.

(** X19: when "-h" or "--hel" stands anywhere behind [argv[0]], also as
    the file of an [-i], the usage is shown and the program exits before
    any parameter is reported or any file is read. *)
Theorem help_flag_anywhere_shows_usage (argv : list string) (a : string) :
  Forall short_arg (tail argv) →
  a ∈ tail argv → a = "-h" ∨ a = "--hel" →
  bedpesummary_main argv = Help [].
Proof.
  intros Hs Ha Hflag. unfold bedpesummary_main.
  assert (scan_for_help (tail argv) = true) as ->; [|reflexivity].
  apply scan_for_help_spec. exists a. split; [done|].
  apply help_flag_spec; [|done].
  rewrite Forall_forall in Hs. by apply Hs.
Qed.

Lemma help_flag_anywhere_shows_usage_witness :
  bedpesummary_main ["bedpesummary"; "-i"; "-h"] = Help [].
Proof.
  refine (help_flag_anywhere_shows_usage
            ["bedpesummary"; "-i"; "-h"] "-h" _ _ _).
  - apply (bool_decide_unpack _). vm_compute. exact I.
  - apply (bool_decide_unpack _). vm_compute. exact I.
  - left. reflexivity.
Defined.

(** X20: on a command line made of [-i file] pairs the summary is run on
    the file of the last pair, and on "stdin" when there is no pair; an
    [-i] in last position, without a file, is passed over in silence.
    (The files are not "-h" or "--hel".) *)
Theorem last_input_file_is_summarised
    (prog : string) (files : list string) (dangling : bool) :
  Forall short_arg files →
  Forall (λ file, file ≠ "-h" ∧ file ≠ "--hel") files →
  bedpesummary_main (prog :: input_options files dangling)
  = Summarise (default "stdin" (last files)).
Proof.
  intros Hs Hn. unfold bedpesummary_main. cbn [tail].
  rewrite scan_for_help_none, parse_input_options; [reflexivity| |].
  - unfold input_options. apply Forall_app. split.
    + apply Forall_concat, Forall_fmap, (Forall_impl _ _ _ Hs).
      intros file Hf. simpl.
      apply Forall_cons_2; [vm_compute; discriminate|].
      apply Forall_cons_2; [done|apply Forall_nil_2].
    + destruct dangling; [|apply Forall_nil_2].
      apply Forall_cons_2; [vm_compute; discriminate|apply Forall_nil_2].
  - unfold input_options. apply Forall_app. split.
    + apply Forall_concat, Forall_fmap, (Forall_impl _ _ _ Hn).
      intros file Hf. simpl.
      apply Forall_cons_2; [split; discriminate|].
      apply Forall_cons_2; [done|apply Forall_nil_2].
    + destruct dangling; [|apply Forall_nil_2].
      apply Forall_cons_2; [split; discriminate|apply Forall_nil_2].
Qed.

Lemma last_input_file_is_summarised_witness :
  bedpesummary_main ["bedpesummary"; "-i"; "a.bedpe"; "-i"; "b.bedpe"; "-i"]
  = Summarise "b.bedpe".
Proof.
  refine (last_input_file_is_summarised "bedpesummary"
            ["a.bedpe"; "b.bedpe"] true _ _).
  - apply (bool_decide_unpack _). vm_compute. exact I.
  - apply (bool_decide_unpack _). vm_compute. exact I.
Defined.

(** X21: the summary is only run when the command line behind [argv[0]]
    is made of [-i file] pairs, with or without a last [-i]; every other
    command line ends in the usage. *)
Theorem summary_needs_input_options (argv : list string) (file : string) :
  Forall short_arg (tail argv) →
  bedpesummary_main argv = Summarise file →
  ∃ files dangling,
    tail argv = input_options files dangling ∧
    file = default "stdin" (last files).
Proof.
  intros Hs. unfold bedpesummary_main.
  destruct (scan_for_help (tail argv)); [done|].
  destruct (showHelp (parse_parameters (tail argv) (mkCli "stdin" false [])))
    eqn:Hf; [done|].
  cbn [negb]. intros [= <-].
  destruct (parse_parameters_shape _ _ Hs Hf) as (files & dangling & E1 & E2).
  exists files, dangling. split; [exact E1|exact E2].
Qed.

Lemma summary_needs_input_options_witness :
  ∃ files dangling,
    tail ["bedpesummary"; "-i"; "a.bedpe"] = input_options files dangling ∧
    "a.bedpe" = default "stdin" (last files).
Proof.
  refine (summary_needs_input_options
            ["bedpesummary"; "-i"; "a.bedpe"] "a.bedpe" _ _).
  - apply (bool_decide_unpack _). vm_compute. exact I.
  - vm_compute. reflexivity.
Defined.

(** X22: the first argument in the place of an option that is not "-i" is
    reported as an unrecognized parameter, ahead of any other, and the
    run ends in the usage; this is what happens to "--help". (No argument
    is "-h" or "--hel".) *)
Theorem unrecognized_parameter_is_reported
    (prog : string) (files : list string) (a : string) (rest : list string) :
  Forall short_arg (input_options files false ++ a :: rest) →
  Forall (λ x, x ≠ "-h" ∧ x ≠ "--hel") (input_options files false ++ a :: rest) →
  a ≠ "-i" →
  ∃ more,
    bedpesummary_main (prog :: input_options files false ++ a :: rest)
    = Help (a :: more).
Proof.
  intros Hs Hn Ha. unfold bedpesummary_main. cbn [tail].
  rewrite scan_for_help_none by done.
  rewrite parse_input_options_app. cbn [parse_parameters].
  assert (short_arg a) as Hsa.
  { apply Forall_app in Hs as [_ Hs]. by apply Forall_cons in Hs as [? _]. }
  destruct (PARAMETER_CHECK a "-i" 2 (parameterLength a)) eqn:Ei.
  { apply input_flag_spec in Ei; done. }
  cbn [bedpeFileA showHelp unrecognized app].
  destruct (parse_parameters_keeps rest
              (mkCli (default "stdin" (last files)) true [a]))
    as [Hk [more Hm]].
  rewrite Hk by reflexivity. cbn [negb]. rewrite Hm.
  by exists more.
Qed.

Lemma unrecognized_parameter_is_reported_witness :
  ∃ more,
    bedpesummary_main ["bedpesummary"; "-i"; "a.bedpe"; "--help"; "-i"]
    = Help ("--help" :: more).
Proof.
  refine (unrecognized_parameter_is_reported "bedpesummary"
            ["a.bedpe"] "--help" ["-i"] _ _ _).
  - apply (bool_decide_unpack _). vm_compute. exact I.
  - apply (bool_decide_unpack _). vm_compute. exact I.
  - discriminate.
Defined.

(** ** Runs that measure nothing *)

Section Unmeasured.

Lemma filter_none {A} (P : A → Prop) `{∀ x, Decision (P x)} (l : list A) :
  Forall (λ x, ¬ P x) l → filter P l = [].
Proof.
  induction 1 as [|x l Hx _ IH]; [reflexivity|].
  by rewrite filter_cons_False.
Qed.

Lemma filter_all {A} (P : A → Prop) `{∀ x, Decision (P x)} (l : list A) :
  Forall P l → filter P l = l.
Proof.
  induction 1 as [|x l Hx _ IH]; [reflexivity|].
  rewrite filter_cons_True by done. by rewrite IH.
Qed.

Lemma count_recs_none P `{∀ e, Decision (P e)} recs :
  Forall (λ e, ¬ P e) recs → count_recs P recs = 0.
Proof. intros H0. unfold count_recs. by rewrite filter_none. Qed.

End Unmeasured.


